(** * simulate_3i_atlas: the hyperbolic Kepler solver and the two-body
      propagation of 3I/ATLAS

    A shallow embedding of [solve_H] and of the numeric part of [main]
    (src/simulate_3i_atlas.py), in three layers.

    The exact model.  Python's [float] and numpy's [float64] are read as
    real numbers: [+ - * /] are the field operations of [R], [math.sinh],
    [math.cosh], [np.arcsinh] and [math.sqrt] are [sinh], [cosh], [arcsinh]
    and [sqrt].  What it keeps of the partiality of the source is the
    division by zero and the domain error of [math.sqrt].

    The range errors.  [math.sinh] and [math.cosh] raise OverflowError
    when their argument is beyond about 710.47, and [datetime + timedelta]
    raises OverflowError outside the years 1 to 9999.  [solve_H_checked],
    [propagate_checked] and [main_trajectory_checked] are the exact model
    with these two checks.

    Binary64.  Where a line uses only the basic operations of IEEE 754,
    [Binary64] evaluates it on primitive floats, rounding included. *)

From Stdlib Require Import Reals Lra Lia ZArith List.
From Stdlib Require Strings.String Strings.Ascii.
From Stdlib Require Floats.
Import ListNotations.

Open Scope R_scope.

(** ** Outcomes of a Python computation *)

Inductive exn : Type :=
| DivByZero    (* a zero denominator: ZeroDivisionError on Python floats
                  (a non-finite value on numpy scalars) *)
| DomainError  (* math.sqrt of a negative number: ValueError *)
| CountError.  (* np.linspace with a negative number of samples: ValueError *)

Inductive result (A : Type) : Type :=
| Ok (v : A)
| Raise (x : exn).

Arguments Ok {A} v.
Arguments Raise {A} x.

Definition bind {A B : Type} (m : result A) (k : A -> result B) : result B :=
  match m with
  | Ok v => k v
  | Raise x => Raise x
  end.

Notation "x <- m ;; k" := (bind m (fun x => k))
  (at level 61, m at next level, right associativity).

Fixpoint mapM {A B : Type} (f : A -> result B) (l : list A) : result (list B) :=
  match l with
  | [] => Ok []
  | a :: l' => b <- f a ;; bs <- mapM f l' ;; Ok (b :: bs)
  end.

(** [x / y] on floats. *)
Definition fdiv (x y : R) : result R :=
  if Req_dec_T y 0 then Raise DivByZero else Ok (x / y).

(** [math.sqrt]. *)
Definition math_sqrt (x : R) : result R :=
  if Rlt_dec x 0 then Raise DomainError else Ok (sqrt x).

(** ** solve_H (lines 25-44) *)

(** The residual of the hyperbolic Kepler equation and its derivative:
    [f = e * s - H - Mh] and [fp = e * c - 1.0] of the loop body. *)
Definition kepler_f (Mh e H : R) : R := e * sinh H - H - Mh.
Definition kepler_fp (e H : R) : R := e * cosh H - 1.

(** Lines 31-34: the initial guess. *)
Definition initial_guess (Mh e : R) : result R :=
  if Rlt_dec 1 (Rabs Mh) then
    x <- fdiv Mh e ;; Ok (arcsinh x)
  else
    fdiv Mh (e - 1).

(** Lines 36-40: the Newton update [dH] at [H]. *)
Definition newton_dH (Mh e H : R) : result R :=
  let s := sinh H in
  let c := cosh H in
  let f := e * s - H - Mh in
  let fp := e * c - 1 in
  fdiv (- f) fp.

(** Lines 35-43: [n] is the number of turns [range(maxit)] still has. *)
Fixpoint newton_loop (n : nat) (Mh e tol H : R) : result R :=
  match n with
  | O => Ok H
  | S k =>
      dH <- newton_dH Mh e H ;;
      let H' := H + dH in
      if Rlt_dec (Rabs dH) tol then Ok H' else newton_loop k Mh e tol H'
  end.

Definition solve_H (Mh e tol : R) (maxit : Z) : result R :=
  H0 <- initial_guess Mh e ;;
  newton_loop (Z.to_nat maxit) Mh e tol H0.

Definition default_tol : R := 1e-12.
Definition default_maxit : Z := 100%Z.


(** [k] unconditional Newton updates from [H]. *)
Fixpoint newton_iter (k : nat) (Mh e H : R) : result R :=
  match k with
  | O => Ok H
  | S j => dH <- newton_dH Mh e H ;; newton_iter j Mh e (H + dH)
  end.

(** ** The solver as total functions, for [1 < e] *)

(** One Newton update as a total function: [H + dH] with [dH = - f / fp]. *)
Definition newton_next (Mh e H : R) : R :=
  H + - kepler_f Mh e H / kepler_fp e H.

(** The initial guess as a total function. *)
Definition guess (Mh e : R) : R :=
  if Rlt_dec 1 (Rabs Mh) then arcsinh (Mh / e) else Mh / (e - 1).


Definition neg_result (m : result R) : result R :=
  match m with
  | Ok v => Ok (- v)
  | Raise x => Raise x
  end.

(** The first iterate on the right of the root: the initial guess itself
    when [|Mh| <= 1], the first update of it otherwise. *)
Definition above_start (Mh e : R) : R :=
  if Rlt_dec 1 (Rabs Mh) then newton_next Mh e (guess Mh e) else guess Mh e.

(** ** The numeric part of main (lines 58-88) *)

Record Trajectory : Type := mkTrajectory {
  traj_t_days : list R;
  traj_Mh : list R;
  traj_H : list R;
  traj_r : list R;
  traj_x_peri : list R;
  traj_y_peri : list R;
  traj_times : list R
}.

(** [np.linspace(start, stop, num)] with the default [endpoint=True]:
    [num] equally spaced samples, the last one set to [stop]. *)
Definition linspace (start stop : R) (num : Z) : result (list R) :=
  if (num <? 0)%Z then Raise CountError
  else
    let div := (num - 1)%Z in
    let delta := stop - start in
    let idx := map INR (seq 0 (Z.to_nat num)) in
    let y :=
      if (0 <? div)%Z then
        let step := delta / IZR div in
        map (fun i => i * step + start) idx
      else
        map (fun i => i * delta + start) idx in
    Ok (if (1 <? num)%Z then removelast y ++ [stop] else y).

(** Line 64. *)
Definition eccentricity (q a : R) : result R :=
  x <- fdiv q (Rabs a) ;; Ok (1 + x).

(** Lines 73-88 on a grid [t_days]; a time stamp is a real number of days
    and [T_peri + timedelta(days=dt)] is the sum.  [t_days / tau] is a
    numpy division: it raises nothing, and [tau] is zero only for [a = 0],
    which line 64 has already refused. *)
Definition propagate (a e mu T_peri : R) (t_days : list R) : result Trajectory :=
  a3mu <- fdiv (Rabs a ^ 3) mu ;;
  tau <- math_sqrt a3mu ;;
  let Mh := map (fun t => t / tau) t_days in
  H <- mapM (fun m => solve_H m e default_tol default_maxit) Mh ;;
  let r := map (fun h => Rabs (a * (e * cosh h - 1))) H in
  let coshH := map cosh H in
  let sinhH := map sinh H in
  let x_peri := map (fun ch => a * (e - ch)) coshH in
  se <- math_sqrt (e ^ 2 - 1) ;;
  let y_peri := map (fun sh => a * se * sh) sinhH in
  let times := map (fun dt => T_peri + dt) t_days in
  Ok (mkTrajectory t_days Mh H r x_peri y_peri times).

(** Lines 58-88, with the constants [k_gauss], [q], [a] and [T_peri] and
    the options [--tmin], [--tmax] and [--points] as arguments. *)
Definition main_trajectory (k q a T_peri tmin tmax : R) (points : Z)
  : result Trajectory :=
  let mu := k ^ 2 in
  e <- eccentricity q a ;;
  t_days <- linspace tmin tmax points ;;
  propagate a e mu T_peri t_days.

(** The constants of lines 58-67; the epoch 2025-10-29 11:15 UTC is given
    in days since 1970-01-01. *)
Definition k_gauss : R := 0.01720209895.
Definition q_nominal : R := 1.3565.
Definition a_nominal : R := -0.26549.
Definition T_peri_nominal : R := 20390 + 0.46875.

(** The sample the propagation computes for one offset [t]. *)
Record Sample : Type := mkSample {
  s_t : R; s_H : R; s_r : R; s_x : R; s_y : R; s_time : R
}.

Definition sample_at (tr : Trajectory) (i : nat) : option Sample :=
  match nth_error (traj_t_days tr) i, nth_error (traj_H tr) i,
        nth_error (traj_r tr) i, nth_error (traj_x_peri tr) i,
        nth_error (traj_y_peri tr) i, nth_error (traj_times tr) i with
  | Some t, Some h, Some r, Some x, Some y, Some tm =>
      Some (mkSample t h r x y tm)
  | _, _, _, _, _, _ => None
  end.

(** Line 73: the time scale. *)
Definition tau_of (a mu : R) : R := sqrt (Rabs a ^ 3 / mu).

(** The anomaly [solve_H] returns with its default [tol] and [maxit]. *)
Definition anomaly (e Mh : R) : R :=
  match solve_H Mh e default_tol default_maxit with
  | Ok H => H
  | Raise _ => 0
  end.

(** Lines 76-88 for one offset [t]. *)
Definition sample_of (a e mu T_peri t : R) : Sample :=
  let H := anomaly e (t / tau_of a mu) in
  mkSample t H
    (Rabs (a * (e * cosh H - 1)))
    (a * (e - cosh H))
    (a * sqrt (e ^ 2 - 1) * sinh H)
    (T_peri + t).

(** Hyperbolic elements: [q > 0], [a < 0] and [e] as line 64 computes it. *)
Definition hyperbolic (q a e : R) : Prop :=
  0 < q /\ a < 0 /\ eccentricity q a = Ok e.

(** The eccentricity and the gravitational parameter of lines 59 and 64. *)
Definition e_nominal : R := 1 + q_nominal / Rabs a_nominal.
Definition mu_nominal : R := k_gauss ^ 2.

(** ** The rest of main: options, annotation, marker, file names *)

(** Lines 49-51: the defaults of [--tmin], [--tmax] and [--points]. *)
Definition default_tmin : R := -200.
Definition default_tmax : R := 200.
Definition default_points : Z := 2001%Z.

(** Line 102: [times[len(times) // 2]], the time at which the text of the
    annotation is placed; [None] is the IndexError of an empty list. *)
Definition xytext_time (times : list R) : option R :=
  nth_error times (length times / 2).


(** Lines 106 and 128: the names of the two image files. *)
Module Paths.

Import Ascii String.
Local Open Scope string_scope.

(** [s.rstrip(c)] for a single character [c]. *)
Fixpoint rstrip (c : ascii) (s : string) : string :=
  match s with
  | EmptyString => EmptyString
  | String a s' =>
      match rstrip c s' with
      | EmptyString =>
          if Ascii.eqb a c then EmptyString else String a EmptyString
      | r => String a r
      end
  end.

Definition out1 (out : string) : string :=
  rstrip "/" out ++ "/3I_ATLAS_distancia_vs_tempo.png".

Definition out2 (out : string) : string :=
  rstrip "/" out ++ "/3I_ATLAS_trajetoria_perifocal.png".

(** Line 52: the default of [--out]. *)
Definition default_out : string := ".".

(** [k] copies of the character [c], and the last character of a string. *)
Fixpoint replicate (k : nat) (c : ascii) : string :=
  match k with
  | O => EmptyString
  | S j => String c (replicate j c)
  end.

Fixpoint last_char (s : string) : option ascii :=
  match s with
  | EmptyString => None
  | String a EmptyString => Some a
  | String _ s' => last_char s'
  end.

End Paths.

(** ** Range errors *)

(** A computation that can also end in OverflowError. *)
Inductive outcome (A : Type) : Type :=
| Value (v : A)
| Error (x : exn)
| Overflow.

Arguments Value {A} v.
Arguments Error {A} x.
Arguments Overflow {A}.

Definition obind {A B : Type} (m : outcome A) (k : A -> outcome B) : outcome B :=
  match m with
  | Value v => k v
  | Error x => Error x
  | Overflow => Overflow
  end.

Notation "x <~ m ;; k" := (obind m (fun x => k))
  (at level 61, m at next level, right associativity).

Definition lift {A : Type} (m : result A) : outcome A :=
  match m with
  | Ok v => Value v
  | Raise x => Error x
  end.

Fixpoint omapM {A B : Type} (f : A -> outcome B) (l : list A) : outcome (list B) :=
  match l with
  | [] => Value []
  | a :: l' => b <~ f a ;; bs <~ omapM f l' ;; Value (b :: bs)
  end.

Definition neg_outcome (m : outcome R) : outcome R :=
  match m with
  | Value v => Value (- v)
  | Error x => Error x
  | Overflow => Overflow
  end.

(** The largest binary64 at which [math.sinh] and [math.cosh] are finite;
    beyond it they raise OverflowError ("math range error"). *)
Definition sinh_max_arg : R := 710.4758600739439.

(** Lines 36-40: [math.sinh(H)] and [math.cosh(H)] come first. *)
Definition newton_dH_checked (Mh e H : R) : outcome R :=
  if Rlt_dec sinh_max_arg (Rabs H) then Overflow else lift (newton_dH Mh e H).

Fixpoint newton_loop_checked (n : nat) (Mh e tol H : R) : outcome R :=
  match n with
  | O => Value H
  | S k =>
      dH <~ newton_dH_checked Mh e H ;;
      let H' := H + dH in
      if Rlt_dec (Rabs dH) tol then Value H'
      else newton_loop_checked k Mh e tol H'
  end.

Definition solve_H_checked (Mh e tol : R) (maxit : Z) : outcome R :=
  H0 <~ lift (initial_guess Mh e) ;;
  newton_loop_checked (Z.to_nat maxit) Mh e tol H0.

(** [datetime] holds the instants of the years 1 to 9999, here in days
    since 1970-01-01, and [timedelta] at most 999999999 days.  The rounding
    of [timedelta(days=dt)] to a whole number of microseconds is not
    modelled. *)
Definition datetime_min : R := -719162.
Definition datetime_max : R := 2932897.
Definition timedelta_max_days : R := 999999999.

(** Line 88: [T_peri + timedelta(days=float(dt))]. *)
Definition add_days (T_peri dt : R) : outcome R :=
  if Rlt_dec timedelta_max_days (Rabs dt) then Overflow
  else if Rlt_dec (T_peri + dt) datetime_min then Overflow
  else if Rle_dec datetime_max (T_peri + dt) then Overflow
  else Value (T_peri + dt).

(** Lines 73-88 with the range errors. *)
Definition propagate_checked (a e mu T_peri : R) (t_days : list R)
  : outcome Trajectory :=
  a3mu <~ lift (fdiv (Rabs a ^ 3) mu) ;;
  tau <~ lift (math_sqrt a3mu) ;;
  let Mh := map (fun t => t / tau) t_days in
  H <~ omapM (fun m => solve_H_checked m e default_tol default_maxit) Mh ;;
  let r := map (fun h => Rabs (a * (e * cosh h - 1))) H in
  let coshH := map cosh H in
  let sinhH := map sinh H in
  let x_peri := map (fun ch => a * (e - ch)) coshH in
  se <~ lift (math_sqrt (e ^ 2 - 1)) ;;
  let y_peri := map (fun sh => a * se * sh) sinhH in
  times <~ omapM (fun dt => add_days T_peri dt) t_days ;;
  Value (mkTrajectory t_days Mh H r x_peri y_peri times).

Definition main_trajectory_checked (k q a T_peri tmin tmax : R) (points : Z)
  : outcome Trajectory :=
  let mu := k ^ 2 in
  e <~ lift (eccentricity q a) ;;
  t_days <~ lift (linspace tmin tmax points) ;;
  propagate_checked a e mu T_peri t_days.

(** An offset at which neither the solver nor the time stamp can leave its
    range: the iterates are bounded by [|Mh| / (e - 1)]. *)
Definition within_ranges (a e mu T_peri t : R) : Prop :=
  Rabs (t / tau_of a mu) / (e - 1) <= 700 /\
  Rabs t <= timedelta_max_days /\
  datetime_min <= T_peri + t < datetime_max.

(** ** Lines 62-64 and 80-85 in binary64 *)

Module Binary64.

Import Floats.PrimFloat.
Local Open Scope float_scope.

(** Lines 62 and 63: the literals, rounded to binary64 as Python does. *)
#[warnings="-inexact-float"]
Definition q_nominal : float := 1.3565.
#[warnings="-inexact-float"]
Definition a_nominal : float := -0.26549.

(** Line 64. *)
Definition eccentricity (q a : float) : float := 1 + q / abs a.

(** Line 80 and line 85 for one sample, given the value [coshH] that
    [np.cosh] returned for it; [np.cosh(0.0)] is [1.0]. *)
Definition distance (a e coshH : float) : float := abs (a * (e * coshH - 1)).
Definition x_peri (a e coshH : float) : float := a * (e - coshH).

(** The perihelion sample with the constants of lines 62-64. *)
Definition e_nominal : float := eccentricity q_nominal a_nominal.
Definition r_perihelion : float := distance a_nominal e_nominal 1.
Definition x_perihelion : float := x_peri a_nominal e_nominal 1.

End Binary64.

(** ** Hyperbolic functions *)

Section Hyperbolic.

Lemma exp_mul_neg (x : R) : exp x * exp (- x) = 1.
Proof. rewrite <- exp_plus, Rplus_opp_r. apply exp_0. Qed.

Lemma cosh_ge_1 (x : R) : 1 <= cosh x.
Proof.
  unfold cosh.
  pose proof (exp_pos x) as Hp. pose proof (exp_pos (- x)) as Hn.
  pose proof (exp_mul_neg x) as Hm.
  set (u := exp x) in *. set (v := exp (- x)) in *.
  pose proof (Rle_0_sqr (u - v)) as Hs. unfold Rsqr in Hs.
  nra.
Qed.

Lemma cosh_sinh_exp (x : R) : cosh x - sinh x = exp (- x).
Proof. unfold cosh, sinh. lra. Qed.

Lemma sinh_lt_cosh (x : R) : sinh x < cosh x.
Proof. pose proof (cosh_sinh_exp x). pose proof (exp_pos (- x)). lra. Qed.

Lemma sinh_opp (x : R) : sinh (- x) = - sinh x.
Proof. unfold sinh. rewrite Ropp_involutive. lra. Qed.

Lemma cosh_opp (x : R) : cosh (- x) = cosh x.
Proof. unfold cosh. rewrite Ropp_involutive. lra. Qed.

Lemma arcsinh_opp (x : R) : arcsinh (- x) = - arcsinh x.
Proof.
  rewrite <- (arcsinh_sinh (- arcsinh x)).
  now rewrite sinh_opp, sinh_arcsinh.
Qed.


Lemma sinh_nonneg (x : R) : 0 <= x -> 0 <= sinh x.
Proof.
  intros [Hx | <-]; [| rewrite sinh_0; lra].
  left. rewrite <- sinh_0. now apply sinh_lt.
Qed.

Lemma sinh_pos (x : R) : 0 < x -> 0 < sinh x.
Proof. intros Hx. rewrite <- sinh_0. now apply sinh_lt. Qed.

(** Mean value forms. *)
Lemma sinh_mvt (x y : R) :
  x < y -> exists c, x < c < y /\ sinh y - sinh x = cosh c * (y - x).
Proof.
  intros Hxy.
  destruct (MVT_cor2 sinh cosh x y Hxy) as [c [Hc1 Hc2]].
  - intros c _. apply derivable_pt_lim_sinh.
  - exists c. split; assumption.
Qed.

Lemma cosh_mvt (x y : R) :
  x < y -> exists c, x < c < y /\ cosh y - cosh x = sinh c * (y - x).
Proof.
  intros Hxy.
  destruct (MVT_cor2 cosh sinh x y Hxy) as [c [Hc1 Hc2]].
  - intros c _. apply derivable_pt_lim_cosh.
  - exists c. split; assumption.
Qed.

Lemma cosh_lt (x y : R) : 0 <= x -> x < y -> cosh x < cosh y.
Proof.
  intros Hx Hxy.
  destruct (cosh_mvt x y Hxy) as [c [[Hc1 Hc2] Heq]].
  assert (0 < sinh c) by (apply sinh_pos; lra).
  nra.
Qed.

Lemma cosh_le (x y : R) : 0 <= x -> x <= y -> cosh x <= cosh y.
Proof.
  intros Hx [Hxy | <-]; [left; now apply cosh_lt | lra].
Qed.

Lemma cosh_Rabs (x : R) : cosh (Rabs x) = cosh x.
Proof.
  unfold Rabs. destruct (Rcase_abs x); [apply cosh_opp | reflexivity].
Qed.

Lemma cosh_lt_abs (x y : R) : Rabs x < Rabs y -> cosh x < cosh y.
Proof.
  intros H. rewrite <- (cosh_Rabs x), <- (cosh_Rabs y).
  apply cosh_lt; [apply Rabs_pos | assumption].
Qed.

Lemma cosh_lt_abs_inv (x y : R) : cosh x < cosh y -> Rabs x < Rabs y.
Proof.
  intros H. destruct (Rlt_dec (Rabs x) (Rabs y)) as [Hlt | Hge]; [assumption |].
  exfalso. apply Rnot_lt_le in Hge.
  pose proof (cosh_le (Rabs y) (Rabs x) (Rabs_pos y) Hge) as Hc.
  rewrite !cosh_Rabs in Hc. lra.
Qed.

(** [sinh] lies above its tangents on the non-negative half line. *)
Lemma sinh_tangent (x y : R) :
  0 <= x -> 0 <= y -> sinh x + cosh x * (y - x) <= sinh y.
Proof.
  intros Hx Hy.
  destruct (Rtotal_order x y) as [Hlt | [<- | Hgt]].
  - destruct (sinh_mvt x y Hlt) as [c [[Hc1 Hc2] Heq]].
    assert (cosh x < cosh c) by (apply cosh_lt; lra).
    nra.
  - lra.
  - destruct (sinh_mvt y x Hgt) as [c [[Hc1 Hc2] Heq]].
    assert (cosh c < cosh x) by (apply cosh_lt; lra).
    nra.
Qed.

Lemma sinh_ge_id (x : R) : 0 <= x -> x <= sinh x.
Proof.
  intros Hx.
  pose proof (sinh_tangent 0 x (Rle_refl 0) Hx) as Ht.
  rewrite sinh_0, cosh_0 in Ht. lra.
Qed.

Lemma sinh_le_id_cosh (x : R) : 0 <= x -> sinh x <= x * cosh x.
Proof.
  intros Hx.
  pose proof (sinh_tangent x 0 Hx (Rle_refl 0)) as Ht.
  rewrite sinh_0 in Ht. lra.
Qed.

Lemma arcsinh_nonneg (x : R) : 0 <= x -> 0 <= arcsinh x.
Proof. intros Hx. rewrite <- arcsinh_0. now apply arcsinh_le. Qed.

Lemma arcsinh_le_id (x : R) : 0 <= x -> arcsinh x <= x.
Proof.
  intros Hx. rewrite <- (arcsinh_sinh x) at 2.
  apply arcsinh_le. now apply sinh_ge_id.
Qed.

End Hyperbolic.

(** ** The solver under the precondition [1 < e] *)

Section SolverBasics.

Lemma fdiv_ok (x y : R) : y <> 0 -> fdiv x y = Ok (x / y).
Proof.
  intros Hy. unfold fdiv. destruct (Req_dec_T y 0); [contradiction | reflexivity].
Qed.

Lemma fdiv_zero (x : R) : fdiv x 0 = Raise DivByZero.
Proof.
  unfold fdiv. destruct (Req_dec_T 0 0); [reflexivity | contradiction].
Qed.

Lemma kepler_fp_pos (e H : R) : 1 < e -> 0 < kepler_fp e H.
Proof.
  intros He. unfold kepler_fp. pose proof (cosh_ge_1 H). nra.
Qed.

Lemma kepler_fp_ge (e H : R) : 1 < e -> e - 1 <= kepler_fp e H.
Proof.
  intros He. unfold kepler_fp. pose proof (cosh_ge_1 H). nra.
Qed.

Lemma newton_dH_ok (Mh e H : R) :
  1 < e -> newton_dH Mh e H = Ok (- kepler_f Mh e H / kepler_fp e H).
Proof.
  intros He. unfold newton_dH. cbv zeta.
  fold (kepler_f Mh e H). fold (kepler_fp e H).
  apply fdiv_ok. pose proof (kepler_fp_pos e H He). lra.
Qed.

Lemma initial_guess_ok (Mh e : R) :
  1 < e -> initial_guess Mh e = Ok (guess Mh e).
Proof.
  intros He. unfold initial_guess, guess.
  destruct (Rlt_dec 1 (Rabs Mh)).
  - rewrite fdiv_ok by lra. reflexivity.
  - apply fdiv_ok. lra.
Qed.

Lemma newton_loop_S (n : nat) (Mh e tol H : R) :
  1 < e ->
  newton_loop (S n) Mh e tol H =
    if Rlt_dec (Rabs (- kepler_f Mh e H / kepler_fp e H)) tol
    then Ok (newton_next Mh e H)
    else newton_loop n Mh e tol (newton_next Mh e H).
Proof.
  intros He. cbn [newton_loop]. rewrite newton_dH_ok by assumption. reflexivity.
Qed.

Lemma newton_loop_total (n : nat) (Mh e tol H : R) :
  1 < e -> exists Hr, newton_loop n Mh e tol H = Ok Hr.
Proof.
  intros He. revert H. induction n as [| n IH]; intros H.
  - exists H. reflexivity.
  - rewrite newton_loop_S by assumption.
    destruct (Rlt_dec _ tol); [eexists; reflexivity | apply IH].
Qed.

Lemma solve_H_total (Mh e tol : R) (maxit : Z) :
  1 < e -> exists Hr, solve_H Mh e tol maxit = Ok Hr.
Proof.
  intros He. unfold solve_H. rewrite initial_guess_ok by assumption.
  cbn [bind]. apply newton_loop_total. assumption.
Qed.

Lemma newton_iter_S (j : nat) (Mh e H : R) :
  1 < e -> newton_iter (S j) Mh e H = newton_iter j Mh e (newton_next Mh e H).
Proof.
  intros He. cbn [newton_iter]. rewrite newton_dH_ok by assumption. reflexivity.
Qed.



(** Oddness of every piece of the solver. *)
Lemma kepler_f_opp (Mh e H : R) : kepler_f (- Mh) e (- H) = - kepler_f Mh e H.
Proof. unfold kepler_f. rewrite sinh_opp. lra. Qed.

Lemma kepler_fp_opp (e H : R) : kepler_fp e (- H) = kepler_fp e H.
Proof. unfold kepler_fp. now rewrite cosh_opp. Qed.

Lemma fdiv_opp (x y : R) : fdiv (- x) y = neg_result (fdiv x y).
Proof.
  unfold fdiv. destruct (Req_dec_T y 0); cbn; [reflexivity |].
  f_equal. unfold Rdiv. lra.
Qed.

Lemma newton_dH_opp (Mh e H : R) :
  newton_dH (- Mh) e (- H) = neg_result (newton_dH Mh e H).
Proof.
  unfold newton_dH. cbv zeta. rewrite sinh_opp, cosh_opp.
  replace (- (e * - sinh H - - H - - Mh)) with (- - (e * sinh H - H - Mh)) by lra.
  apply fdiv_opp.
Qed.

Lemma newton_loop_opp (n : nat) (Mh e tol H : R) :
  newton_loop n (- Mh) e tol (- H) = neg_result (newton_loop n Mh e tol H).
Proof.
  revert H. induction n as [| n IH]; intros H; [reflexivity |].
  cbn [newton_loop]. rewrite newton_dH_opp.
  destruct (newton_dH Mh e H) as [dH | x]; cbn; [| reflexivity].
  rewrite Rabs_Ropp.
  replace (- H + - dH) with (- (H + dH)) by lra.
  destruct (Rlt_dec (Rabs dH) tol); [reflexivity | apply IH].
Qed.

Lemma initial_guess_opp (Mh e : R) :
  initial_guess (- Mh) e = neg_result (initial_guess Mh e).
Proof.
  unfold initial_guess. rewrite Rabs_Ropp.
  destruct (Rlt_dec 1 (Rabs Mh)).
  - rewrite fdiv_opp. destruct (fdiv Mh e); cbn; [| reflexivity].
    now rewrite arcsinh_opp.
  - apply fdiv_opp.
Qed.

Lemma solve_H_opp (Mh e tol : R) (maxit : Z) :
  solve_H (- Mh) e tol maxit = neg_result (solve_H Mh e tol maxit).
Proof.
  unfold solve_H. rewrite initial_guess_opp.
  destruct (initial_guess Mh e) as [H0 | x]; cbn; [| reflexivity].
  apply newton_loop_opp.
Qed.

End SolverBasics.

(** ** Newton's method on the Kepler residual

    For [0 <= Mh] the residual is convex and increasing on the non-negative
    half line.  An iterate on the right of the root stays there and moves
    left; an iterate on the left jumps to the right of it. *)

Section NewtonConvex.

Variables Mh e : R.
Hypothesis He : 1 < e.
Hypothesis HMh : 0 <= Mh.

Let f := kepler_f Mh e.
Let p := kepler_fp e.
Let next := newton_next Mh e.

Lemma kepler_f_tangent (x y : R) :
  0 <= x -> 0 <= y -> f x + p x * (y - x) <= f y.
Proof.
  intros Hx Hy. unfold f, p, kepler_f, kepler_fp.
  pose proof (sinh_tangent x y Hx Hy). nra.
Qed.

Lemma kepler_fp_mono (x y : R) : 0 <= x -> x <= y -> p x <= p y.
Proof.
  intros Hx Hxy. unfold p, kepler_fp.
  pose proof (cosh_le x y Hx Hxy). nra.
Qed.

Lemma kepler_f_le_id_fp (x : R) : 0 <= x -> f x <= x * p x.
Proof.
  intros Hx. unfold f, p, kepler_f, kepler_fp.
  pose proof (sinh_le_id_cosh x Hx). nra.
Qed.

(** The secant slope between two points is at least the derivative at the
    left one and at most the derivative at the right one. *)
Lemma kepler_f_secant (x y : R) :
  0 <= x -> x <= y -> p x * (y - x) <= f y - f x <= p y * (y - x).
Proof.
  intros Hx [Hlt | <-]; [| lra].
  destruct (sinh_mvt x y Hlt) as [c [[Hc1 Hc2] Heq]].
  assert (Hlo : cosh x * (y - x) <= sinh y - sinh x).
  { rewrite Heq. apply Rmult_le_compat_r; [lra | apply cosh_le; lra]. }
  assert (Hhi : sinh y - sinh x <= cosh y * (y - x)).
  { rewrite Heq. apply Rmult_le_compat_r; [lra | apply cosh_le; lra]. }
  assert (Hlo' : e * (cosh x * (y - x)) <= e * (sinh y - sinh x))
    by (apply Rmult_le_compat_l; lra).
  assert (Hhi' : e * (sinh y - sinh x) <= e * (cosh y * (y - x)))
    by (apply Rmult_le_compat_l; lra).
  unfold f, p, kepler_f, kepler_fp. split; lra.
Qed.

Lemma step_div (H : R) : (- f H / p H) * p H = - f H.
Proof.
  pose proof (kepler_fp_pos e H He). fold p in H0. field. lra.
Qed.

(** One update from the right of the root. *)
Lemma above_step (H : R) :
  0 <= H -> 0 <= f H ->
  0 <= next H <= H /\
  0 <= f (next H) <= f H /\
  f (next H) * p (next H) <= f H * p H / 4.
Proof.
  intros HH Hf.
  pose proof (kepler_fp_pos e H He) as Hp. fold p in Hp.
  pose proof (step_div H) as Hd.
  unfold next, newton_next. fold f p.
  set (d := - f H / p H) in *.
  assert (Hd0 : d <= 0) by nra.
  assert (HdH : - H <= d).
  { pose proof (kepler_f_le_id_fp H HH). nra. }
  assert (Hn0 : 0 <= H + d) by lra.
  pose proof (kepler_f_tangent H (H + d) HH Hn0) as Htan.
  pose proof (kepler_f_secant (H + d) H Hn0 ltac:(lra)) as [Hsec _].
  pose proof (kepler_fp_pos e (H + d) He) as Hp'. fold p in Hp'.
  pose proof (kepler_fp_mono (H + d) H Hn0 ltac:(lra)) as Hpm.
  set (f' := f (H + d)) in *. set (p' := p (H + d)) in *.
  set (f0 := f H) in *. set (p0 := p H) in *.
  assert (Hf'0 : 0 <= f') by nra.
  assert (Hf'1 : f' <= (- d) * (p0 - p')) by nra.
  repeat split; try lra.
  - nra.
  - assert (Hq : p' * (p0 - p') <= p0 * p0 / 4).
    { pose proof (Rle_0_sqr (p0 - 2 * p')) as Hs. unfold Rsqr in Hs. nra. }
    assert (Hm : f' * p' <= (- d) * (p' * (p0 - p'))) by nra.
    assert (Hm2 : (- d) * (p' * (p0 - p')) <= (- d) * (p0 * p0 / 4)).
    { apply Rmult_le_compat_l; lra. }
    nra.
Qed.

(** One update from the left of the root. *)
Lemma below_step (H : R) :
  0 <= H -> f H <= 0 ->
  H <= next H /\
  0 <= f (next H) <= (- f H / p H) * p (next H).
Proof.
  intros HH Hf.
  pose proof (kepler_fp_pos e H He) as Hp. fold p in Hp.
  pose proof (step_div H) as Hd.
  unfold next, newton_next. fold f p.
  set (d := - f H / p H) in *.
  assert (Hd0 : 0 <= d) by nra.
  assert (Hn0 : 0 <= H + d) by lra.
  pose proof (kepler_f_tangent H (H + d) HH Hn0) as Htan.
  pose proof (kepler_f_secant H (H + d) HH ltac:(lra)) as [_ Hsec].
  pose proof (kepler_fp_pos e (H + d) He) as Hp'. fold p in Hp'.
  pose proof (kepler_fp_mono H (H + d) HH ltac:(lra)) as Hpm.
  repeat split; try lra; nra.
Qed.

End NewtonConvex.

Section NewtonLoop.

Variables Mh e : R.
Hypothesis He : 1 < e.
Hypothesis HMh : 0 <= Mh.

Let f := kepler_f Mh e.
Let p := kepler_fp e.
Let next := newton_next Mh e.

Lemma update_abs_above (H : R) :
  0 <= f H -> Rabs (- f H / p H) * p H = f H.
Proof.
  intros Hf.
  pose proof (kepler_fp_pos e H He) as Hp. fold p in Hp.
  pose proof (step_div Mh e He H) as Hd. fold f p in Hd.
  rewrite Rabs_left1; [lra | nra].
Qed.

Lemma update_abs_below (H : R) :
  f H <= 0 -> Rabs (- f H / p H) = - f H / p H.
Proof.
  intros Hf.
  pose proof (kepler_fp_pos e H He) as Hp. fold p in Hp.
  pose proof (step_div Mh e He H) as Hd. fold f p in Hd.
  apply Rabs_pos_eq. nra.
Qed.

(** The loop started on the right of the root: it ends on the right of the
    root, left of where it started; it either left through [break], and
    the residual is below [tol * fp], or each of its [n] updates divided
    [f * fp] by four. *)
Lemma above_loop (n : nat) (tol H : R) :
  0 <= H -> 0 <= f H ->
  exists Hr,
    newton_loop n Mh e tol H = Ok Hr /\
    0 <= Hr <= H /\ 0 <= f Hr /\
    (f Hr < tol * p H \/ f Hr * p Hr <= f H * p H / 4 ^ n).
Proof.
  revert H. induction n as [| n IH]; intros H HH Hf.
  - exists H. cbn. repeat split; first [lra | right; lra].
  - rewrite newton_loop_S by assumption. fold f p next.
    destruct (above_step Mh e He HMh H HH Hf) as [[Hn0 Hn1] [[Hf0 Hf1] Hpot]].
    fold f p next in Hn0, Hn1, Hf0, Hf1, Hpot.
    pose proof (kepler_fp_pos e H He) as Hp. fold p in Hp.
    pose proof (update_abs_above H Hf) as Habs.
    destruct (Rlt_dec (Rabs (- f H / p H)) tol) as [Hbrk | Hgo].
    + exists (next H). repeat split; try lra. left.
      assert (Rabs (- f H / p H) * p H < tol * p H)
        by (apply Rmult_lt_compat_r; assumption).
      lra.
    + destruct (IH (next H) Hn0 Hf0) as [Hr [Heq [[Hr0 Hr1] [Hfr Hcase]]]].
      exists Hr. repeat split; try assumption; try lra.
      pose proof (kepler_fp_mono e He (next H) H Hn0 Hn1) as Hpm. fold p in Hpm.
      pose proof (kepler_fp_pos e (next H) He) as Hpn. fold p in Hpn.
      destruct Hcase as [Hl | Hrgt].
      * left.
        assert (0 < tol) by nra.
        assert (tol * p (next H) <= tol * p H)
          by (apply Rmult_le_compat_l; lra).
        lra.
      * right.
        assert (Hpow : 0 < 4 ^ n) by (apply pow_lt; lra).
        apply Rle_trans with (1 := Hrgt).
        change (4 ^ S n) with (4 * 4 ^ n).
        unfold Rdiv. rewrite Rinv_mult.
        assert (0 < / 4 ^ n) by (apply Rinv_0_lt_compat; assumption).
        nra.
Qed.

(** The square of the final residual when the loop ran out of turns. *)
Lemma above_loop_residual (n : nat) (tol H : R) :
  0 <= H -> 0 <= f H ->
  exists Hr,
    newton_loop n Mh e tol H = Ok Hr /\
    0 <= Hr <= H /\ 0 <= f Hr /\
    (f Hr < tol * p H \/ f Hr * f Hr <= H * (f H * p H) / 4 ^ n).
Proof.
  intros HH Hf.
  destruct (above_loop n tol H HH Hf) as [Hr [Heq [[Hr0 Hr1] [Hfr Hcase]]]].
  exists Hr. repeat split; try assumption.
  destruct Hcase as [Hl | Hrgt]; [left; assumption | right].
  pose proof (kepler_f_le_id_fp Mh e He HMh Hr Hr0) as Hid. fold f p in Hid.
  pose proof (kepler_fp_pos e Hr He) as Hpr. fold p in Hpr.
  assert (Hpow : 0 < / 4 ^ n) by (apply Rinv_0_lt_compat, pow_lt; lra).
  assert (H1 : f Hr * f Hr <= Hr * (f Hr * p Hr)) by nra.
  assert (H2 : 0 <= f Hr * p Hr) by nra.
  assert (H3 : Hr * (f Hr * p Hr) <= H * (f Hr * p Hr)) by nra.
  assert (H4 : H * (f Hr * p Hr) <= H * (f H * p H / 4 ^ n))
    by (apply Rmult_le_compat_l; lra).
  unfold Rdiv in *. lra.
Qed.

End NewtonLoop.

Section NewtonStart.

Variables Mh e : R.
Hypothesis He : 1 < e.
Hypothesis HMh : 0 <= Mh.

Let f := kepler_f Mh e.
Let p := kepler_fp e.

Lemma guess_small :
  ~ 1 < Rabs Mh ->
  guess Mh e = Mh / (e - 1) /\ 0 <= guess Mh e /\ 0 <= f (guess Mh e).
Proof.
  intros Hs. unfold guess. destruct (Rlt_dec 1 (Rabs Mh)); [contradiction |].
  assert (Hinv : 0 < / (e - 1)) by (apply Rinv_0_lt_compat; lra).
  assert (H0 : 0 <= Mh / (e - 1)) by (unfold Rdiv; nra).
  repeat split; try assumption.
  unfold f, kepler_f.
  pose proof (sinh_ge_id _ H0) as Hsh.
  assert (Hm : Mh / (e - 1) * (e - 1) = Mh) by (field; lra).
  nra.
Qed.

Lemma guess_large :
  1 < Rabs Mh ->
  guess Mh e = arcsinh (Mh / e) /\
  0 <= guess Mh e <= Mh / e /\ f (guess Mh e) = - guess Mh e.
Proof.
  intros Hl. unfold guess. destruct (Rlt_dec 1 (Rabs Mh)); [| contradiction].
  assert (Hinv : 0 < / e) by (apply Rinv_0_lt_compat; lra).
  assert (H0 : 0 <= Mh / e) by (unfold Rdiv; nra).
  repeat split.
  - now apply arcsinh_nonneg.
  - now apply arcsinh_le_id.
  - unfold f, kepler_f. rewrite sinh_arcsinh. field. lra.
Qed.

Lemma above_start_bounds :
  0 <= above_start Mh e <= Mh / (e - 1) /\ 0 <= f (above_start Mh e).
Proof.
  unfold above_start. destruct (Rlt_dec 1 (Rabs Mh)) as [Hl | Hs].
  - destruct (guess_large Hl) as [_ [[Hg0 Hg1] Hfg]].
    assert (Hle : f (guess Mh e) <= 0) by lra.
    destruct (below_step Mh e He (guess Mh e) Hg0 Hle) as [Hup [Hf0 _]].
    fold f in Hf0. repeat split; try lra.
    unfold newton_next. fold f p. rewrite Hfg.
    pose proof (kepler_fp_ge e (guess Mh e) He) as Hp. fold p in Hp.
    set (g := guess Mh e) in *.
    replace (- - g) with g by lra.
    assert (Hq : g / p g <= g / (e - 1)).
    { unfold Rdiv. apply Rmult_le_compat_l; [assumption |].
      apply Rinv_le_contravar; lra. }
    assert (Hb : g + g / (e - 1) <= Mh / (e - 1)).
    { assert (He1 : 0 < / (e - 1)) by (apply Rinv_0_lt_compat; lra).
      replace (g + g / (e - 1)) with (g * e / (e - 1)) by (field; lra).
      unfold Rdiv.
      apply Rmult_le_compat_r; [lra |].
      assert (Hm : Mh / e * e = Mh) by (field; lra).
      nra. }
    lra.
  - destruct (guess_small Hs) as [Hg [Hg0 Hfg]]. rewrite <- Hg. lra.
Qed.

(** The whole solver for [0 <= Mh], with at least one turn of the loop. *)
Lemma solve_H_above (tol : R) (maxit : Z) (m : nat) :
  Z.to_nat maxit = S m ->
  exists Hr,
    solve_H Mh e tol maxit = Ok Hr /\
    0 <= Hr <= above_start Mh e /\ 0 <= f Hr /\
    (f Hr < tol * p (above_start Mh e) \/
     f Hr * f Hr <=
       above_start Mh e * (f (above_start Mh e) * p (above_start Mh e)) / 4 ^ m).
Proof.
  intros Hm. unfold solve_H. rewrite initial_guess_ok by assumption.
  cbn [bind]. rewrite Hm.
  destruct above_start_bounds as [[Ha0 Ha1] Haf].
  unfold above_start in *.
  destruct (Rlt_dec 1 (Rabs Mh)) as [Hl | Hs].
  - destruct (guess_large Hl) as [_ [[Hg0 Hg1] Hfg]].
    assert (Hle : f (guess Mh e) <= 0) by lra.
    destruct (below_step Mh e He (guess Mh e) Hg0 Hle) as [Hup [Hf0 Hf1]].
    fold f p in Hf0, Hf1.
    rewrite newton_loop_S by assumption.
    rewrite (update_abs_below Mh e He (guess Mh e) Hle). fold f p.
    destruct (Rlt_dec (- f (guess Mh e) / p (guess Mh e)) tol) as [Hbrk | Hgo].
    + eexists. split; [reflexivity |]. repeat split; try lra. left.
      pose proof (kepler_fp_pos e (newton_next Mh e (guess Mh e)) He) as Hp.
      fold p in Hp. nra.
    + apply (above_loop_residual Mh e He HMh m tol); assumption.
  - destruct (above_loop_residual Mh e He HMh (S m) tol (guess Mh e) Ha0 Haf)
      as [Hr [Heq [[Hr0 Hr1] [Hfr Hcase]]]].
    fold f p in Hfr, Hcase.
    exists Hr. repeat split; try assumption.
    destruct Hcase as [Hlft | Hrgt]; [left; assumption | right].
    apply Rle_trans with (1 := Hrgt).
    pose proof (kepler_fp_pos e (guess Mh e) He) as Hp. fold p in Hp.
    assert (Hpow : 0 < 4 ^ m) by (apply pow_lt; lra).
    change (4 ^ S m) with (4 * 4 ^ m).
    unfold Rdiv. rewrite Rinv_mult.
    assert (0 < / 4 ^ m) by (apply Rinv_0_lt_compat; assumption).
    assert (0 <= guess Mh e * (f (guess Mh e) * p (guess Mh e))).
    { apply Rmult_le_pos; [assumption |]. apply Rmult_le_pos; lra. }
    nra.
Qed.

End NewtonStart.

(** ** The residual of the returned anomaly *)

Section Residual.

Lemma pow4_99 : 10 ^ 59 <= 4 ^ 99.
Proof.
  replace 10 with (IZR 10) by reflexivity. replace 4 with (IZR 4) by reflexivity.
  rewrite !pow_IZR. apply IZR_le. vm_compute. discriminate.
Qed.

Lemma solve_H_residual_nonneg (Mh e : R) :
  1 < e -> 0 <= Mh -> e * cosh (Mh / (e - 1)) <= 1001 ->
  exists H,
    solve_H Mh e default_tol default_maxit = Ok H /\
    0 <= kepler_f Mh e H < 1e-9.
Proof.
  intros He HMh Hdom.
  destruct (solve_H_above Mh e He HMh default_tol default_maxit 99 eq_refl)
    as [Hr [Heq [[Hr0 Hr1] [Hfr Hcase]]]].
  exists Hr. split; [assumption |]. split; [assumption |].
  destruct (above_start_bounds Mh e He HMh) as [[Ha0 Ha1] Haf].
  set (Hs := above_start Mh e) in *. set (B := Mh / (e - 1)) in *.
  assert (HB0 : 0 <= B) by lra.
  pose proof (cosh_ge_1 B) as HcB.
  assert (HBc : B <= 1001).
  { pose proof (sinh_ge_id B HB0). pose proof (sinh_lt_cosh B). nra. }
  pose proof (kepler_fp_mono e He Hs B Ha0 Ha1) as Hpm.
  pose proof (kepler_fp_pos e Hs He) as Hps.
  assert (HpB : kepler_fp e B <= 1000) by (unfold kepler_fp; lra).
  assert (Hfs : kepler_f Mh e Hs <= 1001).
  { unfold kepler_f. pose proof (sinh_lt_cosh Hs).
    pose proof (cosh_le Hs B Ha0 Ha1). nra. }
  destruct Hcase as [Hl | Hrgt].
  - unfold default_tol in Hl. nra.
  - set (fr := kepler_f Mh e Hr) in *.
    set (fs := kepler_f Mh e Hs) in *. set (ps := kepler_fp e Hs) in *.
    assert (Hprod : Hs * (fs * ps) <= 1001 * (1001 * 1000)).
    { assert (fs * ps <= 1001 * 1000) by nra.
      assert (0 <= fs * ps) by nra. nra. }
    pose proof pow4_99 as Hp4.
    assert (H10 : (10:R) ^ 59 = 1e59) by lra.
    assert (Hpos : 0 < 4 ^ 99) by lra.
    assert (Hsq : fr * fr * 4 ^ 99 <= 1001 * (1001 * 1000)).
    { apply Rle_trans with (2 := Hprod).
      apply Rle_trans with (Hs * (fs * ps) / 4 ^ 99 * 4 ^ 99).
      - apply Rmult_le_compat_r; lra.
      - right. field. }
    destruct (Rlt_dec fr 1e-9) as [Hlt | Hge]; [assumption | exfalso].
    apply Rnot_lt_le in Hge.
    assert (1e-9 * 1e-9 <= fr * fr) by nra.
    assert (1e-9 * 1e-9 * 4 ^ 99 <= fr * fr * 4 ^ 99)
      by (apply Rmult_le_compat_r; lra).
    nra.
Qed.

Lemma solve_H_residual_bound (Mh e : R) :
  1 < e -> e * cosh (Rabs Mh / (e - 1)) <= 1001 ->
  exists H,
    solve_H Mh e default_tol default_maxit = Ok H /\
    Rabs (kepler_f Mh e H) < 1e-9.
Proof.
  intros He Hdom.
  destruct (Rle_dec 0 Mh) as [Hpos | Hneg].
  - rewrite Rabs_pos_eq in Hdom by assumption.
    destruct (solve_H_residual_nonneg Mh e He Hpos Hdom) as [H [Heq [H0 H1]]].
    exists H. split; [assumption |]. rewrite Rabs_pos_eq; assumption.
  - apply Rnot_le_lt in Hneg.
    rewrite Rabs_left in Hdom by assumption.
    destruct (solve_H_residual_nonneg (- Mh) e He ltac:(lra) Hdom)
      as [H [Heq [H0 H1]]].
    exists (- H). split.
    + rewrite <- (Ropp_involutive Mh) at 1. rewrite solve_H_opp, Heq. reflexivity.
    + rewrite <- (Ropp_involutive Mh) at 1. rewrite kepler_f_opp, Rabs_Ropp.
      rewrite Rabs_pos_eq; assumption.
Qed.

End Residual.

(** ** The propagation *)

Section Propagation.

Lemma mapM_total {A B : Type} (f : A -> result B) (g : A -> B) (l : list A) :
  (forall x, f x = Ok (g x)) -> mapM f l = Ok (map g l).
Proof.
  intros Hfg. induction l as [| x l IH]; [reflexivity |].
  cbn. rewrite Hfg, IH. reflexivity.
Qed.

Lemma solve_H_anomaly (e Mh : R) :
  1 < e -> solve_H Mh e default_tol default_maxit = Ok (anomaly e Mh).
Proof.
  intros He. unfold anomaly.
  destruct (solve_H_total Mh e default_tol default_maxit He) as [H ->].
  reflexivity.
Qed.

Lemma hyperbolic_e (q a e : R) :
  hyperbolic q a e -> e = 1 + q / Rabs a /\ 1 < e /\ Rabs a * (e - 1) = q.
Proof.
  intros [Hq [Ha He]]. unfold eccentricity in He.
  assert (Habs : 0 < Rabs a) by (apply Rabs_pos_lt; lra).
  rewrite fdiv_ok in He by lra. cbn in He. injection He as <-.
  assert (Hinv : 0 < / Rabs a) by (apply Rinv_0_lt_compat; assumption).
  split; [reflexivity |]. split.
  - unfold Rdiv. nra.
  - field. lra.
Qed.

Lemma tau_pos (a mu : R) : a <> 0 -> 0 < mu -> 0 < tau_of a mu.
Proof.
  intros Ha Hmu. unfold tau_of. apply sqrt_lt_R0.
  apply Rdiv_lt_0_compat; [| assumption].
  apply pow_lt. now apply Rabs_pos_lt.
Qed.

Lemma propagate_ok (a e mu T_peri : R) (t_days : list R) :
  0 < mu -> 1 < e ->
  propagate a e mu T_peri t_days =
    Ok (mkTrajectory t_days
          (map (fun t => t / tau_of a mu) t_days)
          (map (fun t => s_H (sample_of a e mu T_peri t)) t_days)
          (map (fun t => s_r (sample_of a e mu T_peri t)) t_days)
          (map (fun t => s_x (sample_of a e mu T_peri t)) t_days)
          (map (fun t => s_y (sample_of a e mu T_peri t)) t_days)
          (map (fun t => s_time (sample_of a e mu T_peri t)) t_days)).
Proof.
  intros Hmu He. unfold propagate.
  rewrite fdiv_ok by lra. cbn [bind].
  assert (Hnn : 0 <= Rabs a ^ 3 / mu).
  { apply Rmult_le_pos; [apply pow_le, Rabs_pos | left; now apply Rinv_0_lt_compat]. }
  unfold math_sqrt at 1.
  destruct (Rlt_dec (Rabs a ^ 3 / mu) 0) as [Hbad | _]; [lra |].
  cbn [bind]. fold (tau_of a mu).
  rewrite (mapM_total _ (anomaly e)) by (intros m; now apply solve_H_anomaly).
  cbn [bind]. unfold math_sqrt.
  destruct (Rlt_dec (e ^ 2 - 1) 0) as [Hbad | _]; [nra |].
  cbn [bind]. rewrite !map_map. reflexivity.
Qed.

Lemma sample_at_propagate (a e mu T_peri : R) (t_days : list R)
      (tr : Trajectory) (i : nat) :
  0 < mu -> 1 < e ->
  propagate a e mu T_peri t_days = Ok tr ->
  sample_at tr i = option_map (sample_of a e mu T_peri) (nth_error t_days i).
Proof.
  intros Hmu He Hp. rewrite propagate_ok in Hp by assumption.
  injection Hp as <-. unfold sample_at. cbn.
  rewrite !nth_error_map.
  destruct (nth_error t_days i) as [t |]; reflexivity.
Qed.

Lemma propagate_lengths (a e mu T_peri : R) (t_days : list R) (tr : Trajectory) :
  0 < mu -> 1 < e ->
  propagate a e mu T_peri t_days = Ok tr ->
  traj_t_days tr = t_days /\
  length (traj_Mh tr) = length t_days /\
  length (traj_H tr) = length t_days /\
  length (traj_r tr) = length t_days /\
  length (traj_x_peri tr) = length t_days /\
  length (traj_y_peri tr) = length t_days /\
  length (traj_times tr) = length t_days.
Proof.
  intros Hmu He Hp. rewrite propagate_ok in Hp by assumption.
  injection Hp as <-. cbn. rewrite !length_map. repeat split; reflexivity.
Qed.

Lemma linspace_length (start stop : R) (num : Z) :
  (0 <= num)%Z ->
  exists l, linspace start stop num = Ok l /\ length l = Z.to_nat num.
Proof.
  intros Hnum. unfold linspace.
  destruct (Z.ltb_spec num 0) as [Hneg | _]; [lia |].
  eexists. split; [reflexivity |].
  set (y := if (0 <? num - 1)%Z then _ else _).
  assert (Hy : length y = Z.to_nat num).
  { subst y. destruct (0 <? num - 1)%Z; now rewrite !length_map, length_seq. }
  destruct (Z.ltb_spec 1 num) as [Hgt | Hle]; [| assumption].
  rewrite last_length, removelast_firstn_len, length_firstn, Hy. lia.
Qed.

(** The distance in terms of the anomaly. *)
Lemma distance_hyperbolic (q a e H : R) :
  hyperbolic q a e ->
  Rabs (a * (e * cosh H - 1)) = q + Rabs a * e * (cosh H - 1).
Proof.
  intros Hyp. destruct (hyperbolic_e q a e Hyp) as [_ [He Hq]].
  rewrite Rabs_mult.
  rewrite (Rabs_pos_eq (e * cosh H - 1)).
  - rewrite <- Hq. ring.
  - pose proof (cosh_ge_1 H). nra.
Qed.

End Propagation.

(** ** The shape of the loop *)

Section LoopTrace.



End LoopTrace.

(** ** A run that does not converge, and one that does *)

Section Unconverged.

Lemma exp_opp_le_1 (x : R) : 0 <= x -> exp (- x) <= 1.
Proof.
  intros Hx. pose proof (exp_ineq1_le x). pose proof (exp_mul_neg x).
  pose proof (exp_pos (- x)). nra.
Qed.

Lemma sinh_lower (x : R) : 0 <= x -> x / 2 + x * x / 8 <= sinh x.
Proof.
  intros Hx. unfold sinh.
  pose proof (exp_opp_le_1 x Hx) as Hn.
  pose proof (exp_ineq1_le (x / 2)) as Hh.
  assert (He : exp x = exp (x / 2) * exp (x / 2)).
  { rewrite <- exp_plus. f_equal. lra. }
  assert (Hsq : (1 + x / 2) * (1 + x / 2) <= exp x) by (rewrite He; nra).
  lra.
Qed.

(** With [1 <= Mh] an update moves a non-negative iterate left by at most 1. *)
Lemma far_step (Mh e H : R) :
  1 < e -> 1 <= Mh -> 0 <= H -> H - 1 <= newton_next Mh e H.
Proof.
  intros He HMh HH. unfold newton_next.
  pose proof (kepler_fp_pos e H He) as Hp.
  pose proof (step_div Mh e He H) as Hd.
  assert (Hfp : kepler_f Mh e H <= kepler_fp e H).
  { unfold kepler_f, kepler_fp.
    pose proof (cosh_sinh_exp H). pose proof (exp_pos (- H)). nra. }
  set (d := - kepler_f Mh e H / kepler_fp e H) in *.
  assert (0 <= (d + 1) * kepler_fp e H) by lra.
  nra.
Qed.

Lemma far_loop (Mh e tol : R) :
  1 < e -> 1 <= Mh ->
  forall (n : nat) (H : R),
    INR n <= H ->
    exists Hr, newton_loop n Mh e tol H = Ok Hr /\ H - INR n <= Hr.
Proof.
  intros He HMh. induction n as [| n IH]; intros H Hn.
  - exists H. cbn. split; [reflexivity | lra].
  - rewrite S_INR in *. pose proof (pos_INR n) as Hpos.
    pose proof (far_step Mh e H He HMh ltac:(lra)) as Hstep.
    rewrite newton_loop_S by assumption.
    destruct (Rlt_dec _ tol).
    + eexists. split; [reflexivity | lra].
    + destruct (IH (newton_next Mh e H) ltac:(lra)) as [Hr [Heq Hlo]].
      exists Hr. split; [assumption | lra].
Qed.

(** [Mh = 1], [e = 1.002]: the guess is 500 and a hundred updates leave
    the iterate above 400. *)
Lemma solve_H_far :
  exists H, solve_H 1 1.002 default_tol default_maxit = Ok H /\ 400 <= H.
Proof.
  unfold solve_H. rewrite initial_guess_ok by lra. cbn [bind].
  assert (Hg : guess 1 1.002 = 500).
  { unfold guess. rewrite Rabs_R1.
    destruct (Rlt_dec 1 1) as [Hbad | _]; [lra | lra]. }
  rewrite Hg.
  assert (Hn : INR (Z.to_nat default_maxit) = 100).
  { rewrite INR_IZR_INZ. reflexivity. }
  destruct (far_loop 1 1.002 default_tol ltac:(lra) ltac:(lra)
              (Z.to_nat default_maxit) 500 ltac:(lra)) as [Hr [Heq Hlo]].
  exists Hr. split; [assumption | lra].
Qed.

(** [Mh = 2], [e = 1.002]: every iterate after the first update lies in
    [0, 4]. *)
Lemma solve_H_near :
  exists H, solve_H 2 1.002 default_tol default_maxit = Ok H /\ 0 <= H <= 4.
Proof.
  assert (He : 1 < 1.002) by lra. assert (HMh : 0 <= 2) by lra.
  destruct (solve_H_above 2 1.002 He HMh default_tol default_maxit 99 eq_refl)
    as [Hr [Heq [[Hr0 Hr1] _]]].
  exists Hr. split; [assumption |]. split; [assumption |].
  apply Rle_trans with (1 := Hr1).
  assert (Hl : 1 < Rabs 2) by (rewrite Rabs_pos_eq; lra).
  destruct (guess_large 2 1.002 He HMh Hl) as [_ [[Hg0 Hg1] Hfg]].
  unfold above_start. destruct (Rlt_dec 1 (Rabs 2)); [| contradiction].
  unfold newton_next. rewrite Hfg.
  set (g := guess 2 1.002) in *.
  assert (Hp : 1 <= kepler_fp 1.002 g).
  { unfold kepler_fp. pose proof (sinh_lt_cosh g).
    assert (Hs : 1.002 * sinh g = 2).
    { unfold kepler_f in Hfg. lra. }
    nra. }
  assert (Hq : - - g / kepler_fp 1.002 g <= g).
  { replace (- - g) with g by lra.
    apply Rmult_le_reg_r with (kepler_fp 1.002 g); [lra |].
    unfold Rdiv. rewrite Rmult_assoc, Rinv_l by lra. nra. }
  lra.
Qed.

End Unconverged.

(** ** Order of the anomalies *)

Section AnomalyOrder.

Variable e : R.
Hypothesis He : 1 < e.

Lemma kepler_f_lt (Mh x y : R) : x < y -> kepler_f Mh e x < kepler_f Mh e y.
Proof.
  intros Hxy. destruct (sinh_mvt x y Hxy) as [c [[Hc1 Hc2] Heq]].
  pose proof (kepler_fp_pos e c He) as Hp. unfold kepler_fp in Hp.
  unfold kepler_f. nra.
Qed.

Lemma kepler_f0_abs (H : R) : Rabs (kepler_f 0 e H) = kepler_f 0 e (Rabs H).
Proof.
  assert (H0 : kepler_f 0 e 0 = 0) by (unfold kepler_f; rewrite sinh_0; lra).
  destruct (Rtotal_order H 0) as [Hneg | [-> | Hpos]].
  - rewrite (Rabs_left H) by assumption.
    pose proof (kepler_f_lt 0 H 0 Hneg). rewrite Rabs_left by lra.
    rewrite <- kepler_f_opp. now rewrite Ropp_0.
  - rewrite H0, Rabs_R0. symmetry. assumption.
  - rewrite (Rabs_pos_eq H) by lra.
    pose proof (kepler_f_lt 0 0 H Hpos). apply Rabs_pos_eq. lra.
Qed.

Lemma anomaly_order (H1 H2 : R) :
  Rabs (kepler_f 0 e H1) < Rabs (kepler_f 0 e H2) -> Rabs H1 < Rabs H2.
Proof.
  rewrite !kepler_f0_abs. intros Hlt.
  destruct (Rtotal_order (Rabs H1) (Rabs H2)) as [Hl | [Heq | Hg]].
  - assumption.
  - rewrite Heq in Hlt. lra.
  - pose proof (kepler_f_lt 0 _ _ Hg). lra.
Qed.

(** Two returned anomalies are ordered like the mean anomalies as soon as
    these differ by more than the two residuals. *)
Lemma anomaly_order_residual (Mh1 Mh2 H1 H2 : R) :
  Rabs Mh1 + Rabs (kepler_f Mh1 e H1) + Rabs (kepler_f Mh2 e H2) < Rabs Mh2 ->
  Rabs H1 < Rabs H2.
Proof.
  intros Hlt. apply anomaly_order.
  replace (kepler_f 0 e H1) with (Mh1 + kepler_f Mh1 e H1)
    by (unfold kepler_f; lra).
  replace (kepler_f 0 e H2) with (Mh2 - - kepler_f Mh2 e H2)
    by (unfold kepler_f; lra).
  pose proof (Rabs_triang Mh1 (kepler_f Mh1 e H1)).
  pose proof (Rabs_triang_inv Mh2 (- kepler_f Mh2 e H2)) as Hinv.
  rewrite Rabs_Ropp in Hinv. lra.
Qed.

End AnomalyOrder.

(** ** Shared facts *)

Section Shared.

Lemma hyperbolic_nominal : hyperbolic q_nominal a_nominal e_nominal.
Proof.
  unfold hyperbolic, eccentricity, e_nominal, q_nominal, a_nominal.
  repeat split; try lra.
  rewrite fdiv_ok; [reflexivity |].
  rewrite Rabs_left by lra. lra.
Qed.

Lemma mu_nominal_pos : 0 < mu_nominal.
Proof. unfold mu_nominal, k_gauss. apply pow_lt. lra. Qed.

Lemma guess_zero (e : R) : guess 0 e = 0.
Proof.
  unfold guess. rewrite Rabs_R0.
  destruct (Rlt_dec 1 0); [lra | unfold Rdiv; ring].
Qed.

Lemma solve_H_at_zero (e tol : R) (maxit : Z) :
  1 < e -> 0 < tol -> solve_H 0 e tol maxit = Ok 0.
Proof.
  intros He Htol. unfold solve_H. rewrite initial_guess_ok by assumption.
  cbn [bind]. rewrite guess_zero.
  destruct (Z.to_nat maxit) as [| n]; [reflexivity |].
  rewrite newton_loop_S by assumption.
  assert (Hf : kepler_f 0 e 0 = 0) by (unfold kepler_f; rewrite sinh_0; ring).
  unfold newton_next. rewrite Hf.
  replace (- 0 / kepler_fp e 0) with 0 by (unfold Rdiv; ring).
  rewrite Rabs_R0. destruct (Rlt_dec 0 tol); [| contradiction].
  f_equal. ring.
Qed.

Lemma anomaly_zero (e : R) : 1 < e -> anomaly e 0 = 0.
Proof.
  intros He. unfold anomaly.
  rewrite solve_H_at_zero; [reflexivity | assumption | unfold default_tol; lra].
Qed.

Lemma cosh_1_le_2 : cosh 1 <= 2.
Proof.
  unfold cosh. pose proof exp_le_3. pose proof (exp_opp_le_1 1). lra.
Qed.

End Shared.

(** ** Order of the distances *)

Section DistanceOrder.

Lemma Rabs_div_pos (x y : R) : 0 < y -> Rabs (x / y) = Rabs x / y.
Proof.
  intros Hy. unfold Rdiv. rewrite Rabs_mult, Rabs_inv.
  now rewrite (Rabs_pos_eq y) by lra.
Qed.

Lemma tau_unit : tau_of (-1) 1 = 1.
Proof.
  unfold tau_of. rewrite Rabs_left by lra.
  replace ((- -1) ^ 3 / 1) with 1 by lra. apply sqrt_1.
Qed.

Lemma propagate_total (a e mu T_peri : R) (t_days : list R) :
  0 < mu -> 1 < e -> exists tr, propagate a e mu T_peri t_days = Ok tr.
Proof.
  intros Hmu He. eexists. now apply propagate_ok.
Qed.

(** The distances of two anomalies are ordered like their magnitudes. *)
Lemma distance_lt_iff (q a e H1 H2 : R) :
  hyperbolic q a e ->
  Rabs (a * (e * cosh H1 - 1)) < Rabs (a * (e * cosh H2 - 1)) <->
  Rabs H1 < Rabs H2.
Proof.
  intros Hyp. destruct (hyperbolic_e q a e Hyp) as [_ [He _]].
  pose proof Hyp as [Hq [Ha _]].
  rewrite !(distance_hyperbolic q a e) by assumption.
  assert (Hk : 0 < Rabs a * e).
  { apply Rmult_lt_0_compat; [apply Rabs_pos_lt |]; lra. }
  split; intros Hlt.
  - apply cosh_lt_abs_inv. nra.
  - apply cosh_lt_abs in Hlt. nra.
Qed.

(** Two offsets whose mean anomalies differ by at least [2e-9], inside the
    range where the solver is known to converge. *)
Lemma distance_lt_separated (q a e mu T_peri t1 t2 : R) :
  hyperbolic q a e -> 0 < mu ->
  e * cosh (Rabs t2 / tau_of a mu / (e - 1)) <= 1001 ->
  Rabs t1 / tau_of a mu + 2e-9 <= Rabs t2 / tau_of a mu ->
  s_r (sample_of a e mu T_peri t1) < s_r (sample_of a e mu T_peri t2).
Proof.
  intros Hyp Hmu Hdom Hsep. destruct (hyperbolic_e q a e Hyp) as [_ [He _]].
  assert (Htau : 0 < tau_of a mu).
  { apply tau_pos; [| assumption]. destruct Hyp as [_ [Ha _]]. lra. }
  cbn. set (tau := tau_of a mu) in *.
  apply (distance_lt_iff q a e _ _ Hyp).
  assert (Hd2 : e * cosh (Rabs (t2 / tau) / (e - 1)) <= 1001)
    by (rewrite Rabs_div_pos by assumption; exact Hdom).
  assert (Hle : Rabs (t1 / tau) <= Rabs (t2 / tau))
    by (rewrite !Rabs_div_pos by assumption; lra).
  assert (Hd1 : e * cosh (Rabs (t1 / tau) / (e - 1)) <= 1001).
  { apply Rle_trans with (2 := Hd2).
    apply Rmult_le_compat_l; [lra |].
    assert (Hi : 0 < / (e - 1)) by (apply Rinv_0_lt_compat; lra).
    apply cosh_le.
    - apply Rmult_le_pos; [apply Rabs_pos | lra].
    - unfold Rdiv. apply Rmult_le_compat_r; lra. }
  destruct (solve_H_residual_bound _ e He Hd1) as [H1 [Heq1 Hres1]].
  destruct (solve_H_residual_bound _ e He Hd2) as [H2 [Heq2 Hres2]].
  rewrite solve_H_anomaly in Heq1, Heq2 by assumption.
  injection Heq1 as <-. injection Heq2 as <-.
  apply (anomaly_order_residual e He (t1 / tau) (t2 / tau)).
  rewrite !Rabs_div_pos by assumption.
  rewrite !Rabs_div_pos in Hle by assumption. lra.
Qed.

End DistanceOrder.

(** ** The nominal orbit of lines 58-64 over the default grid *)

Section Nominal.

Lemma Rabs_a_nominal : Rabs a_nominal = 0.26549.
Proof. unfold a_nominal. rewrite Rabs_left by lra. lra. Qed.

Lemma e_nominal_bounds : 6.1 <= e_nominal <= 6.11.
Proof. unfold e_nominal, q_nominal. rewrite Rabs_a_nominal. lra. Qed.

Lemma tau_nominal_bounds :
  7.9 <= tau_of a_nominal mu_nominal <= 8.
Proof.
  unfold tau_of, mu_nominal, k_gauss. rewrite Rabs_a_nominal.
  set (x := 0.26549 ^ 3 / 0.01720209895 ^ 2).
  assert (Hx : 7.9 * 7.9 <= x <= 8 * 8) by (unfold x; lra).
  split.
  - rewrite <- (sqrt_square 7.9) by lra. apply sqrt_le_1_alt. lra.
  - rewrite <- (sqrt_square 8) by lra. apply sqrt_le_1_alt. lra.
Qed.

Lemma cosh_5_le : cosh 5 <= 122.
Proof.
  assert (H5 : exp 5 = exp 1 ^ 5).
  { replace 5 with (1 + 1 + 1 + 1 + 1) at 1 by lra. rewrite !exp_plus. ring. }
  assert (Hpow : exp 1 ^ 5 <= 3 ^ 5).
  { apply pow_incr. split; [left; apply exp_pos | apply exp_le_3]. }
  pose proof (exp_opp_le_1 5 ltac:(lra)).
  unfold cosh. lra.
Qed.

Lemma nominal_domain (t : R) :
  Rabs t <= 200 ->
  e_nominal *
    cosh (Rabs t / tau_of a_nominal mu_nominal / (e_nominal - 1)) <= 1001.
Proof.
  intros Ht. pose proof e_nominal_bounds as [He0 He1].
  pose proof tau_nominal_bounds as [Ht0 Ht1].
  pose proof (Rabs_pos t) as Hpos.
  set (tau := tau_of a_nominal mu_nominal) in *.
  assert (Hq : 0 <= Rabs t / tau / (e_nominal - 1) <= 5).
  { assert (Hi : 0 < / tau) by (apply Rinv_0_lt_compat; lra).
    assert (Hj : 0 < / (e_nominal - 1)) by (apply Rinv_0_lt_compat; lra).
    assert (Hi' : / tau <= / 7.9) by (apply Rinv_le_contravar; lra).
    assert (Hj' : / (e_nominal - 1) <= / 5.1) by (apply Rinv_le_contravar; lra).
    assert (Ha : 0 <= Rabs t / tau <= 200 / 7.9) by (unfold Rdiv; split; nra).
    unfold Rdiv in *. split; [nra |].
    apply Rle_trans with (200 * / 7.9 * / 5.1); [| lra].
    apply Rmult_le_compat; lra. }
  pose proof (cosh_le _ 5 (proj1 Hq) (proj2 Hq)) as Hc.
  pose proof cosh_5_le. pose proof (cosh_ge_1 (Rabs t / tau / (e_nominal - 1))).
  nra.
Qed.

(** On the nominal orbit, within 200 days of perihelion, the returned
    anomaly satisfies the Kepler equation to [1e-9]. *)
Lemma nominal_residual (t : R) :
  Rabs t <= 200 ->
  exists H,
    solve_H (t / tau_of a_nominal mu_nominal) e_nominal
            default_tol default_maxit = Ok H /\
    Rabs (kepler_f (t / tau_of a_nominal mu_nominal) e_nominal H) < 1e-9.
Proof.
  intros Ht. pose proof e_nominal_bounds as [He0 He1].
  pose proof tau_nominal_bounds as [Ht0 Ht1].
  apply solve_H_residual_bound; [lra |].
  rewrite Rabs_div_pos by lra. now apply nominal_domain.
Qed.

(** On the nominal orbit, within 200 days of perihelion, offsets that are
    a microday apart in magnitude have strictly ordered distances. *)
Lemma nominal_distance_increasing (t1 t2 : R) :
  Rabs t2 <= 200 -> Rabs t1 + 1e-6 <= Rabs t2 ->
  s_r (sample_of a_nominal e_nominal mu_nominal T_peri_nominal t1) <
  s_r (sample_of a_nominal e_nominal mu_nominal T_peri_nominal t2).
Proof.
  intros Ht2 Hsep. pose proof tau_nominal_bounds as [Ht0 Ht1].
  apply (distance_lt_separated q_nominal);
    [exact hyperbolic_nominal | exact mu_nominal_pos | now apply nominal_domain |].
  set (tau := tau_of a_nominal mu_nominal) in *.
  assert (Hi : / 8 <= / tau) by (apply Rinv_le_contravar; lra).
  unfold Rdiv. nra.
Qed.

(** The numeric part of [main] with its own constants. *)
Lemma main_trajectory_nominal (tmin tmax : R) (points : Z) :
  (0 <= points)%Z ->
  exists grid tr,
    linspace tmin tmax points = Ok grid /\
    main_trajectory k_gauss q_nominal a_nominal T_peri_nominal
                    tmin tmax points = Ok tr /\
    propagate a_nominal e_nominal mu_nominal T_peri_nominal grid = Ok tr /\
    length (traj_r tr) = Z.to_nat points.
Proof.
  intros Hpts. pose proof e_nominal_bounds as [He0 He1].
  destruct (linspace_length tmin tmax points Hpts) as [grid [Hg Hlen]].
  destruct (propagate_total a_nominal e_nominal mu_nominal T_peri_nominal grid
              mu_nominal_pos ltac:(lra)) as [tr Hp].
  exists grid, tr. split; [assumption |].
  destruct hyperbolic_nominal as [_ [_ Hecc]].
  split; [| split; [assumption |]].
  - unfold main_trajectory. rewrite Hecc. cbn [bind]. rewrite Hg. cbn [bind].
    exact Hp.
  - assert (He : 1 < e_nominal) by lra.
    destruct (propagate_lengths _ _ _ _ _ _ mu_nominal_pos He Hp)
      as [_ [_ [_ [Hr _]]]].
    congruence.
Qed.

End Nominal.

(** ** The range errors *)

Section RangeErrors.

Lemma guess_nonneg_bounds (Mh e : R) :
  1 < e -> 0 <= Mh ->
  0 <= guess Mh e <= Mh / (e - 1) /\ (0 < Mh -> 0 < guess Mh e).
Proof.
  intros He HMh.
  assert (Hi : 0 < / (e - 1)) by (apply Rinv_0_lt_compat; lra).
  destruct (Rlt_dec 1 (Rabs Mh)) as [Hl | Hs].
  - destruct (guess_large Mh e He HMh Hl) as [Hg [[Hg0 Hg1] _]].
    assert (Hie : / e <= / (e - 1)) by (apply Rinv_le_contravar; lra).
    assert (Hle : Mh / e <= Mh / (e - 1))
      by (unfold Rdiv; apply Rmult_le_compat_l; assumption).
    repeat split; try lra.
    intros Hpos. rewrite Hg, <- arcsinh_0. apply arcsinh_lt.
    apply Rdiv_lt_0_compat; lra.
  - destruct (guess_small Mh e He HMh Hs) as [Hg [Hg0 _]].
    rewrite Hg in *. repeat split; try lra.
    intros Hpos. apply Rdiv_lt_0_compat; lra.
Qed.

Lemma lift_neg (m : result R) : lift (neg_result m) = neg_outcome (lift m).
Proof. destruct m; reflexivity. Qed.

Lemma newton_dH_checked_in (Mh e H : R) :
  1 < e -> Rabs H <= sinh_max_arg ->
  newton_dH_checked Mh e H = Value (- kepler_f Mh e H / kepler_fp e H).
Proof.
  intros He Hin. unfold newton_dH_checked.
  destruct (Rlt_dec sinh_max_arg (Rabs H)); [lra |].
  now rewrite newton_dH_ok.
Qed.

Lemma newton_dH_checked_out (Mh e H : R) :
  sinh_max_arg < Rabs H -> newton_dH_checked Mh e H = Overflow.
Proof.
  intros Hout. unfold newton_dH_checked.
  destruct (Rlt_dec sinh_max_arg (Rabs H)); [reflexivity | contradiction].
Qed.

Lemma newton_loop_checked_S (n : nat) (Mh e tol H : R) :
  1 < e -> Rabs H <= sinh_max_arg ->
  newton_loop_checked (S n) Mh e tol H =
    if Rlt_dec (Rabs (- kepler_f Mh e H / kepler_fp e H)) tol
    then Value (newton_next Mh e H)
    else newton_loop_checked n Mh e tol (newton_next Mh e H).
Proof.
  intros He Hin. cbn [newton_loop_checked].
  rewrite newton_dH_checked_in by assumption. reflexivity.
Qed.

Lemma newton_dH_checked_opp (Mh e H : R) :
  newton_dH_checked (- Mh) e (- H) = neg_outcome (newton_dH_checked Mh e H).
Proof.
  unfold newton_dH_checked. rewrite Rabs_Ropp.
  destruct (Rlt_dec sinh_max_arg (Rabs H)); [reflexivity |].
  now rewrite newton_dH_opp, lift_neg.
Qed.

Lemma newton_loop_checked_opp (n : nat) (Mh e tol H : R) :
  newton_loop_checked n (- Mh) e tol (- H) =
    neg_outcome (newton_loop_checked n Mh e tol H).
Proof.
  revert H. induction n as [| n IH]; intros H; [reflexivity |].
  cbn [newton_loop_checked]. rewrite newton_dH_checked_opp.
  destruct (newton_dH_checked Mh e H) as [dH | x |]; cbn; try reflexivity.
  rewrite Rabs_Ropp.
  replace (- H + - dH) with (- (H + dH)) by lra.
  destruct (Rlt_dec (Rabs dH) tol); [reflexivity | apply IH].
Qed.

Lemma solve_H_checked_opp (Mh e tol : R) (maxit : Z) :
  solve_H_checked (- Mh) e tol maxit =
    neg_outcome (solve_H_checked Mh e tol maxit).
Proof.
  unfold solve_H_checked. rewrite initial_guess_opp, lift_neg.
  destruct (initial_guess Mh e) as [H0 | x]; cbn; [| reflexivity].
  apply newton_loop_checked_opp.
Qed.

(** The checked loop either meets an iterate out of range or ends like
    the exact one. *)
Lemma newton_loop_checked_cases (Mh e tol : R) :
  1 < e ->
  forall (n : nat) (H : R),
    (newton_loop_checked n Mh e tol H = Overflow /\
     exists j Hj, (j < n)%nat /\ newton_iter j Mh e H = Ok Hj /\
                  sinh_max_arg < Rabs Hj) \/
    (exists Hr, newton_loop_checked n Mh e tol H = Value Hr /\
                newton_loop n Mh e tol H = Ok Hr).
Proof.
  intros He. induction n as [| n IH]; intros H.
  - right. exists H. split; reflexivity.
  - destruct (Rlt_dec sinh_max_arg (Rabs H)) as [Hout | Hin].
    + left. split.
      * cbn [newton_loop_checked]. now rewrite newton_dH_checked_out.
      * exists 0%nat, H. repeat split; [lia | assumption].
    + apply Rnot_lt_le in Hin.
      rewrite newton_loop_checked_S, newton_loop_S by assumption.
      destruct (Rlt_dec _ tol).
      * right. eexists. split; reflexivity.
      * destruct (IH (newton_next Mh e H)) as [[Hov [j [Hj [Hlt [Hit Hbig]]]]] | Hval].
        -- left. split; [assumption |].
           exists (S j), Hj. repeat split; [lia | | assumption].
           now rewrite newton_iter_S.
        -- right. assumption.
Qed.

Lemma solve_H_checked_cases (Mh e tol : R) (maxit : Z) :
  1 < e ->
  (solve_H_checked Mh e tol maxit = Overflow /\
   exists j Hj, (j < Z.to_nat maxit)%nat /\
                newton_iter j Mh e (guess Mh e) = Ok Hj /\
                sinh_max_arg < Rabs Hj) \/
  (exists Hr, solve_H_checked Mh e tol maxit = Value Hr /\
              solve_H Mh e tol maxit = Ok Hr).
Proof.
  intros He. unfold solve_H_checked, solve_H.
  rewrite initial_guess_ok by assumption. cbn [lift obind bind].
  apply newton_loop_checked_cases. assumption.
Qed.

(** Started in range on the right of the root, the loop stays in range. *)
Lemma checked_above_loop (Mh e tol : R) :
  1 < e -> 0 <= Mh ->
  forall (n : nat) (H : R),
    0 <= H <= sinh_max_arg -> 0 <= kepler_f Mh e H ->
    newton_loop_checked n Mh e tol H = lift (newton_loop n Mh e tol H).
Proof.
  intros He HMh. induction n as [| n IH]; intros H [H0 H1] Hf; [reflexivity |].
  destruct (above_step Mh e He HMh H H0 Hf) as [[Hn0 Hn1] [[Hf0 _] _]].
  rewrite newton_loop_checked_S, newton_loop_S
    by (assumption || (rewrite Rabs_pos_eq; assumption)).
  destruct (Rlt_dec _ tol); [reflexivity |].
  apply IH; [lra | assumption].
Qed.

Lemma solve_H_checked_nonneg (Mh e tol : R) (maxit : Z) :
  1 < e -> 0 <= Mh ->
  guess Mh e <= sinh_max_arg -> above_start Mh e <= sinh_max_arg ->
  solve_H_checked Mh e tol maxit = lift (solve_H Mh e tol maxit).
Proof.
  intros He HMh Hg Ha. unfold solve_H_checked, solve_H.
  rewrite initial_guess_ok by assumption. cbn [lift obind bind].
  destruct (Z.to_nat maxit) as [| m]; [reflexivity |].
  unfold above_start in Ha.
  destruct (Rlt_dec 1 (Rabs Mh)) as [Hl | Hs].
  - destruct (guess_large Mh e He HMh Hl) as [_ [[Hg0 _] Hfg]].
    assert (Hle : kepler_f Mh e (guess Mh e) <= 0) by lra.
    destruct (below_step Mh e He (guess Mh e) Hg0 Hle) as [Hup [Hf0 _]].
    rewrite newton_loop_checked_S, newton_loop_S
      by (assumption || (rewrite Rabs_pos_eq; assumption)).
    destruct (Rlt_dec _ tol); [reflexivity |].
    apply checked_above_loop; try assumption. lra.
  - destruct (guess_small Mh e He HMh Hs) as [_ [Hg0 Hfg]].
    apply checked_above_loop; try assumption. lra.
Qed.

(** No range error when [|Mh| / (e - 1)] is in range. *)
Lemma solve_H_checked_safe (Mh e tol : R) (maxit : Z) :
  1 < e -> Rabs Mh / (e - 1) <= sinh_max_arg ->
  solve_H_checked Mh e tol maxit = lift (solve_H Mh e tol maxit).
Proof.
  intros He Hb.
  assert (Hpos : forall M, 0 <= M -> M / (e - 1) <= sinh_max_arg ->
            solve_H_checked M e tol maxit = lift (solve_H M e tol maxit)).
  { intros M HM HMb.
    destruct (guess_nonneg_bounds M e He HM) as [[_ Hg] _].
    destruct (above_start_bounds M e He HM) as [[_ Ha] _].
    apply solve_H_checked_nonneg; try assumption; lra. }
  destruct (Rle_dec 0 Mh) as [Hp | Hn].
  - apply Hpos; [assumption |]. now rewrite Rabs_pos_eq in Hb.
  - apply Rnot_le_lt in Hn. rewrite Rabs_left in Hb by assumption.
    rewrite <- (Ropp_involutive Mh).
    rewrite solve_H_checked_opp, solve_H_opp, lift_neg.
    f_equal. apply Hpos; [lra | assumption].
Qed.

Lemma omapM_total {A B : Type} (f : A -> outcome B) (g : A -> B) (l : list A) :
  (forall x, In x l -> f x = Value (g x)) -> omapM f l = Value (map g l).
Proof.
  induction l as [| x l IH]; intros Hfg; [reflexivity |].
  cbn. rewrite Hfg by (left; reflexivity). cbn.
  rewrite IH by (intros y Hy; apply Hfg; right; exact Hy). reflexivity.
Qed.

Lemma omapM_length {A B : Type} (f : A -> outcome B) (l : list A) (l' : list B) :
  omapM f l = Value l' -> length l' = length l.
Proof.
  revert l'. induction l as [| x l IH]; intros l' Heq.
  - cbn in Heq. injection Heq as <-. reflexivity.
  - cbn in Heq. destruct (f x) as [b | |]; cbn in Heq; try discriminate.
    destruct (omapM f l) as [bs | |]; cbn in Heq; try discriminate.
    injection Heq as <-. cbn. f_equal. now apply IH.
Qed.

Lemma add_days_in (T_peri dt : R) :
  Rabs dt <= timedelta_max_days ->
  datetime_min <= T_peri + dt < datetime_max ->
  add_days T_peri dt = Value (T_peri + dt).
Proof.
  intros Hd [Hlo Hhi]. unfold add_days.
  destruct (Rlt_dec timedelta_max_days (Rabs dt)); [lra |].
  destruct (Rlt_dec (T_peri + dt) datetime_min); [lra |].
  destruct (Rle_dec datetime_max (T_peri + dt)); [lra | reflexivity].
Qed.

Lemma add_days_late (T_peri dt : R) :
  datetime_max <= T_peri + dt -> add_days T_peri dt = Overflow.
Proof.
  intros Hhi. unfold add_days.
  destruct (Rlt_dec timedelta_max_days (Rabs dt)); [reflexivity |].
  destruct (Rlt_dec (T_peri + dt) datetime_min); [reflexivity |].
  destruct (Rle_dec datetime_max (T_peri + dt)); [reflexivity | contradiction].
Qed.

(** The part of [propagate_checked] before the time stamps. *)
Lemma propagate_checked_split (a e mu T_peri : R) (t_days : list R) :
  0 < mu -> 1 < e ->
  (forall t, In t t_days ->
     solve_H_checked (t / tau_of a mu) e default_tol default_maxit =
       lift (solve_H (t / tau_of a mu) e default_tol default_maxit)) ->
  propagate_checked a e mu T_peri t_days =
    (times <~ omapM (fun dt => add_days T_peri dt) t_days ;;
     Value (mkTrajectory t_days
              (map (fun t => t / tau_of a mu) t_days)
              (map (fun t => s_H (sample_of a e mu T_peri t)) t_days)
              (map (fun t => s_r (sample_of a e mu T_peri t)) t_days)
              (map (fun t => s_x (sample_of a e mu T_peri t)) t_days)
              (map (fun t => s_y (sample_of a e mu T_peri t)) t_days)
              times)).
Proof.
  intros Hmu He Hsafe. unfold propagate_checked.
  rewrite fdiv_ok by lra. cbn [lift obind].
  assert (Hnn : 0 <= Rabs a ^ 3 / mu).
  { apply Rmult_le_pos; [apply pow_le, Rabs_pos | left; now apply Rinv_0_lt_compat]. }
  unfold math_sqrt at 1.
  destruct (Rlt_dec (Rabs a ^ 3 / mu) 0) as [Hbad | _]; [lra |].
  cbn [lift obind]. fold (tau_of a mu).
  rewrite (omapM_total _ (anomaly e)).
  - cbn [obind]. unfold math_sqrt.
    destruct (Rlt_dec (e ^ 2 - 1) 0) as [Hbad | _]; [nra |].
    cbn [lift obind]. rewrite !map_map. reflexivity.
  - intros m Hm. apply in_map_iff in Hm. destruct Hm as [t [<- Ht]].
    rewrite (Hsafe t Ht). now rewrite solve_H_anomaly.
Qed.

Lemma propagate_checked_ok (a e mu T_peri : R) (t_days : list R) (tr : Trajectory) :
  0 < mu -> 1 < e ->
  Forall (within_ranges a e mu T_peri) t_days ->
  propagate a e mu T_peri t_days = Ok tr ->
  propagate_checked a e mu T_peri t_days = Value tr.
Proof.
  intros Hmu He Hall Hp. rewrite Forall_forall in Hall.
  rewrite propagate_checked_split; try assumption.
  - rewrite (omapM_total _ (fun t => T_peri + t)).
    + cbn [obind]. rewrite propagate_ok in Hp by assumption.
      injection Hp as <-. reflexivity.
    + intros t Ht. destruct (Hall t Ht) as [_ [Hd Hr]]. now apply add_days_in.
  - intros t Ht. destruct (Hall t Ht) as [Hs _].
    apply solve_H_checked_safe; [assumption |]. unfold sinh_max_arg. lra.
Qed.

Lemma exp_1_ge_2 : 2 <= exp 1.
Proof. pose proof (exp_ineq1_le 1). lra. Qed.

Lemma sinh_20_ge : 500000 <= sinh 20.
Proof.
  assert (H20 : exp 20 = exp 1 ^ 20).
  { replace 20 with (1 + 1 + 1 + 1 + 1 + 1 + 1 + 1 + 1 + 1 +
                     (1 + 1 + 1 + 1 + 1 + 1 + 1 + 1 + 1 + 1)) at 1 by lra.
    rewrite !exp_plus. ring. }
  assert (Hpow : 2 ^ 20 <= exp 1 ^ 20).
  { apply pow_incr. split; [lra | apply exp_1_ge_2]. }
  pose proof (exp_opp_le_1 20 ltac:(lra)).
  unfold sinh. lra.
Qed.

(** The solver at the offset of 3000000 days on the nominal orbit: no
    iterate is beyond 40. *)
Lemma far_offset_in_range :
  solve_H_checked (3000000 / tau_of a_nominal mu_nominal) e_nominal
                  default_tol default_maxit =
  lift (solve_H (3000000 / tau_of a_nominal mu_nominal) e_nominal
                default_tol default_maxit).
Proof.
  pose proof e_nominal_bounds as [He0 He1].
  pose proof tau_nominal_bounds as [Ht0 Ht1].
  assert (He : 1 < e_nominal) by lra.
  set (Mh := 3000000 / tau_of a_nominal mu_nominal).
  assert (HMh : 375000 <= Mh <= 380000).
  { unfold Mh.
    assert (Hi0 : / 8 <= / tau_of a_nominal mu_nominal)
      by (apply Rinv_le_contravar; lra).
    assert (Hi1 : / tau_of a_nominal mu_nominal <= / 7.9)
      by (apply Rinv_le_contravar; lra).
    unfold Rdiv. lra. }
  assert (Hl : 1 < Rabs Mh) by (rewrite Rabs_pos_eq; lra).
  destruct (guess_large Mh e_nominal He ltac:(lra) Hl) as [Hg [[Hg0 _] Hfg]].
  assert (Hg20 : guess Mh e_nominal <= 20).
  { rewrite Hg, <- (arcsinh_sinh 20). apply arcsinh_le.
    pose proof sinh_20_ge.
    assert (Hie : / e_nominal <= / 6.1) by (apply Rinv_le_contravar; lra).
    assert (0 < / e_nominal) by (apply Rinv_0_lt_compat; lra).
    unfold Rdiv. nra. }
  apply solve_H_checked_nonneg; try assumption; try lra.
  - unfold sinh_max_arg. lra.
  - unfold above_start. destruct (Rlt_dec 1 (Rabs Mh)); [| contradiction].
    unfold newton_next. rewrite Hfg.
    set (g := guess Mh e_nominal) in *.
    assert (Hp : 1 <= kepler_fp e_nominal g).
    { unfold kepler_fp. pose proof (sinh_lt_cosh g).
      assert (Hs : e_nominal * sinh g = Mh).
      { unfold kepler_f in Hfg. lra. }
      nra. }
    assert (Hq : - - g / kepler_fp e_nominal g <= g).
    { replace (- - g) with g by lra.
      apply Rmult_le_reg_r with (kepler_fp e_nominal g); [lra |].
      unfold Rdiv. rewrite Rmult_assoc, Rinv_l by lra. nra. }
    unfold sinh_max_arg. lra.
Qed.

Lemma omapM_inv {A B : Type} (f : A -> outcome B) (g : A -> B)
      (l : list A) (l' : list B) :
  (forall x v, In x l -> f x = Value v -> v = g x) ->
  omapM f l = Value l' -> l' = map g l.
Proof.
  revert l'. induction l as [| x l IH]; intros l' Hfg Heq.
  - cbn in Heq. injection Heq as <-. reflexivity.
  - cbn in Heq. destruct (f x) as [b | |] eqn:Hb; cbn in Heq; try discriminate.
    destruct (omapM f l) as [bs | |]; cbn in Heq; try discriminate.
    injection Heq as <-. cbn. f_equal.
    + apply Hfg; [left; reflexivity | assumption].
    + apply IH; [| reflexivity]. intros y v Hy. apply Hfg. right. exact Hy.
Qed.

Lemma solve_H_checked_value (Mh e tol : R) (maxit : Z) (Hr : R) :
  1 < e ->
  solve_H_checked Mh e tol maxit = Value Hr -> solve_H Mh e tol maxit = Ok Hr.
Proof.
  intros He Hv.
  destruct (solve_H_checked_cases Mh e tol maxit He)
    as [[Hov _] | [Hr' [Hval Hok]]]; congruence.
Qed.

Lemma add_days_value (T_peri dt v : R) :
  add_days T_peri dt = Value v -> v = T_peri + dt.
Proof.
  unfold add_days.
  destruct (Rlt_dec timedelta_max_days (Rabs dt)); [discriminate |].
  destruct (Rlt_dec (T_peri + dt) datetime_min); [discriminate |].
  destruct (Rle_dec datetime_max (T_peri + dt)); [discriminate |].
  congruence.
Qed.

(** What [propagate_checked] returns, [propagate] returns. *)
Lemma propagate_checked_inv (a e mu T_peri : R) (t_days : list R) (tr : Trajectory) :
  0 < mu -> 1 < e ->
  propagate_checked a e mu T_peri t_days = Value tr ->
  propagate a e mu T_peri t_days = Ok tr.
Proof.
  intros Hmu He Hc. rewrite propagate_ok by assumption.
  unfold propagate_checked in Hc.
  rewrite fdiv_ok in Hc by lra. cbn [lift obind] in Hc.
  unfold math_sqrt at 1 in Hc.
  assert (Hnn : 0 <= Rabs a ^ 3 / mu).
  { apply Rmult_le_pos; [apply pow_le, Rabs_pos | left; now apply Rinv_0_lt_compat]. }
  destruct (Rlt_dec (Rabs a ^ 3 / mu) 0) as [Hbad | _]; [lra |].
  cbn [lift obind] in Hc. fold (tau_of a mu) in Hc.
  destruct (omapM (fun m => solve_H_checked m e default_tol default_maxit)
                  (map (fun t => t / tau_of a mu) t_days))
    as [Hs | |] eqn:EH; cbn [obind] in Hc; try discriminate.
  apply (omapM_inv _ (anomaly e)) in EH.
  - subst Hs. unfold math_sqrt in Hc.
    destruct (Rlt_dec (e ^ 2 - 1) 0) as [Hbad | _]; [nra |].
    cbn [lift obind] in Hc.
    destruct (omapM (fun dt => add_days T_peri dt) t_days)
      as [ts | |] eqn:ET; cbn [obind] in Hc; try discriminate.
    apply (omapM_inv _ (fun dt => T_peri + dt)) in ET.
    + subst ts. injection Hc as <-. rewrite !map_map. reflexivity.
    + intros dt v _ Hv. now apply add_days_value.
  - intros m v _ Hv. apply solve_H_checked_value in Hv; [| assumption].
    unfold anomaly. now rewrite Hv.
Qed.

Lemma propagate_checked_total (a e mu T_peri : R) (t_days : list R) :
  0 < mu -> 1 < e ->
  Forall (within_ranges a e mu T_peri) t_days ->
  exists tr, propagate_checked a e mu T_peri t_days = Value tr.
Proof.
  intros Hmu He Hall.
  destruct (propagate_total a e mu T_peri t_days Hmu He) as [tr Hp].
  exists tr. now apply propagate_checked_ok.
Qed.

(** The samples of a returned trajectory. *)
Lemma sample_at_checked (a e mu T_peri : R) (t_days : list R)
      (tr : Trajectory) (i : nat) (s : Sample) :
  0 < mu -> 1 < e ->
  propagate_checked a e mu T_peri t_days = Value tr ->
  sample_at tr i = Some s ->
  exists t, nth_error t_days i = Some t /\ s = sample_of a e mu T_peri t.
Proof.
  intros Hmu He Hc Hs. apply propagate_checked_inv in Hc; try assumption.
  rewrite (sample_at_propagate a e mu T_peri t_days tr i Hmu He Hc) in Hs.
  destruct (nth_error t_days i) as [t |]; [| discriminate].
  injection Hs as <-. now exists t.
Qed.

(** The offsets within 200 days of the perihelion, on the nominal orbit. *)
Lemma nominal_within_ranges (t : R) :
  Rabs t <= 200 ->
  within_ranges a_nominal e_nominal mu_nominal T_peri_nominal t.
Proof.
  intros Ht. pose proof e_nominal_bounds as [He0 He1].
  pose proof tau_nominal_bounds as [Ht0 Ht1].
  pose proof (Rabs_pos t) as Hpos.
  unfold within_ranges. split; [| split].
  - rewrite Rabs_div_pos by lra.
    set (tau := tau_of a_nominal mu_nominal) in *.
    assert (Hi : 0 < / tau) by (apply Rinv_0_lt_compat; lra).
    assert (Hj : 0 < / (e_nominal - 1)) by (apply Rinv_0_lt_compat; lra).
    assert (Hi' : / tau <= / 7.9) by (apply Rinv_le_contravar; lra).
    assert (Hj' : / (e_nominal - 1) <= / 5.1) by (apply Rinv_le_contravar; lra).
    assert (Ha : 0 <= Rabs t / tau <= 200 / 7.9) by (unfold Rdiv; split; nra).
    unfold Rdiv in *.
    apply Rle_trans with (200 * / 7.9 * / 5.1); [| lra].
    apply Rmult_le_compat; lra.
  - unfold timedelta_max_days. lra.
  - pose proof (Rle_abs t) as Hu. pose proof (Rle_abs (- t)) as Hl.
    rewrite Rabs_Ropp in Hl.
    unfold datetime_min, datetime_max, T_peri_nominal. lra.
Qed.

Lemma linspace_two (start stop : R) : linspace start stop 2 = Ok [start; stop].
Proof.
  unfold linspace. cbn [Z.ltb Z.compare Z.sub Z.add Z.opp Z.pos_sub Pos.pred_double].
  change (Z.to_nat 2) with 2%nat. cbn [seq map INR removelast app].
  change (1 <? 2)%Z with true. cbn iota.
  do 2 f_equal. lra.
Qed.

(** What the numeric part of [main] returns with the range errors, it
    returns without them, on a grid with [points] samples. *)
Lemma main_trajectory_checked_inv (k q a e T_peri tmin tmax : R)
      (points : Z) (tr : Trajectory) :
  hyperbolic q a e -> k <> 0 ->
  main_trajectory_checked k q a T_peri tmin tmax points = Value tr ->
  (0 <= points)%Z /\
  exists grid,
    linspace tmin tmax points = Ok grid /\
    length grid = Z.to_nat points /\
    propagate_checked a e (k ^ 2) T_peri grid = Value tr /\
    propagate a e (k ^ 2) T_peri grid = Ok tr.
Proof.
  intros Hyp Hk Hm. destruct (hyperbolic_e q a e Hyp) as [_ [He _]].
  assert (Hmu : 0 < k ^ 2) by nra.
  destruct Hyp as [_ [_ Hecc]].
  unfold main_trajectory_checked in Hm. rewrite Hecc in Hm.
  cbn [lift obind] in Hm.
  destruct (Z.lt_ge_cases points 0) as [Hneg | Hnn].
  - unfold linspace in Hm.
    destruct (Z.ltb_spec points 0) as [_ | Hbad]; [| lia].
    cbn [lift obind] in Hm. discriminate.
  - split; [assumption |].
    destruct (linspace_length tmin tmax points Hnn) as [grid [Hg Hlen]].
    rewrite Hg in Hm. cbn [lift obind] in Hm.
    exists grid. repeat split; try assumption.
    now apply propagate_checked_inv.
Qed.

(** Every call of the solver made by a propagation that returns. *)
Lemma propagate_checked_solver (a e mu T_peri : R) (t_days : list R)
      (tr : Trajectory) (t : R) :
  0 < mu -> 1 < e ->
  propagate_checked a e mu T_peri t_days = Value tr ->
  In t t_days ->
  solve_H_checked (t / tau_of a mu) e default_tol default_maxit =
    Value (anomaly e (t / tau_of a mu)).
Proof.
  intros Hmu He Hc Hin. unfold propagate_checked in Hc.
  rewrite fdiv_ok in Hc by lra. cbn [lift obind] in Hc.
  unfold math_sqrt at 1 in Hc.
  assert (Hnn : 0 <= Rabs a ^ 3 / mu).
  { apply Rmult_le_pos; [apply pow_le, Rabs_pos | left; now apply Rinv_0_lt_compat]. }
  destruct (Rlt_dec (Rabs a ^ 3 / mu) 0) as [Hbad | _]; [lra |].
  cbn [lift obind] in Hc. fold (tau_of a mu) in Hc.
  destruct (omapM (fun m => solve_H_checked m e default_tol default_maxit)
                  (map (fun t => t / tau_of a mu) t_days))
    as [Hs | |] eqn:EH; cbn [obind] in Hc; try discriminate.
  clear Hc. revert Hs EH. induction t_days as [| t0 l IH]; intros Hs EH.
  - destruct Hin.
  - cbn in EH.
    destruct (solve_H_checked (t0 / tau_of a mu) e default_tol default_maxit)
      as [v | |] eqn:Hv; cbn in EH; try discriminate.
    destruct (omapM (fun m => solve_H_checked m e default_tol default_maxit)
                    (map (fun t => t / tau_of a mu) l))
      as [vs | |] eqn:Hvs; cbn in EH; try discriminate.
    destruct Hin as [<- | Hin].
    + rewrite Hv. apply solve_H_checked_value in Hv; [| assumption].
      unfold anomaly. now rewrite Hv.
    + now apply (IH Hin vs).
Qed.

End RangeErrors.

(** ** The claims *)

(** C1, as stated, fails: for [Mh = 1] and [e = 1.002] the guess is
    [1 / 0.002 = 500], the hundred updates of the default run move the
    iterate left by at most 1 each, and [solve_H] returns an [H >= 400]
    whose residual [e * sinh H - H - Mh] is far above [1e-9]. *)
Lemma residual_unconverged :
  exists H,
    solve_H 1 1.002 default_tol default_maxit = Ok H /\
    ~ Rabs (kepler_f 1 1.002 H) < 1e-9.
Proof.
  destruct solve_H_far as [H [Heq Hlo]].
  exists H. split; [assumption |].
  pose proof (sinh_lower H ltac:(lra)) as Hs.
  assert (Hf : 1 <= kepler_f 1 1.002 H) by (unfold kepler_f; nra).
  rewrite Rabs_pos_eq by lra. lra.
Qed.

(** C1 (amended).  For every real [Mh] and every [e > 1] with
    [e * cosh (|Mh| / (e - 1)) <= 1001], [solve_H Mh e] with the default
    [tol = 1e-12] and [maxit = 100] returns an [H] with
    [|e * sinh H - H - Mh| < 1e-9]. *)
Theorem residual_within_range (Mh e : R) :
  1 < e -> e * cosh (Rabs Mh / (e - 1)) <= 1001 ->
  exists H,
    solve_H Mh e default_tol default_maxit = Ok H /\
    Rabs (e * sinh H - H - Mh) < 1e-9.
Proof.
  intros He Hdom.
  destruct (solve_H_residual_bound Mh e He Hdom) as [H [Heq Hres]].
  exists H. split; assumption.
Qed.

Lemma residual_within_range_witness :
  1 < 2 /\ 2 * cosh (Rabs 1 / (2 - 1)) <= 1001 /\
  exists H,
    solve_H 1 2 default_tol default_maxit = Ok H /\
    Rabs (2 * sinh H - H - 1) < 1e-9.
Proof.
  assert (Hdom : 2 * cosh (Rabs 1 / (2 - 1)) <= 1001).
  { rewrite Rabs_R1. replace (1 / (2 - 1)) with 1 by lra.
    pose proof cosh_1_le_2. lra. }
  split; [lra |]. split; [exact Hdom |].
  apply (residual_within_range 1 2); [lra | exact Hdom].
Defined.

(** C2.  For every [e > 1], every [tol > 0] and every [maxit > 0],
    [solve_H 0 e] returns exactly 0. *)
Theorem solve_H_zero (e tol : R) (maxit : Z) :
  1 < e -> 0 < tol -> (0 < maxit)%Z -> solve_H 0 e tol maxit = Ok 0.
Proof.
  intros He Htol _. now apply solve_H_at_zero.
Qed.

Lemma solve_H_zero_witness :
  1 < 2 /\ 0 < default_tol /\ (0 < default_maxit)%Z /\
  solve_H 0 2 default_tol default_maxit = Ok 0.
Proof.
  assert (Htol : 0 < default_tol) by (unfold default_tol; lra).
  split; [lra |]. split; [exact Htol |]. split; [reflexivity |].
  apply (solve_H_zero 2 default_tol default_maxit); [lra | exact Htol | reflexivity].
Defined.



(** C4.  The initial guess of [solve_H] is [arcsinh (Mh / e)] for every
    [Mh] with [|Mh| > 1] and [Mh / (e - 1)] for every [Mh] with
    [|Mh| <= 1]; the loop starts from it. *)
Theorem initial_guess_bifurcation (Mh e tol : R) (maxit : Z) :
  1 < e ->
  (1 < Rabs Mh ->
     initial_guess Mh e = Ok (arcsinh (Mh / e)) /\
     solve_H Mh e tol maxit =
       newton_loop (Z.to_nat maxit) Mh e tol (arcsinh (Mh / e))) /\
  (Rabs Mh <= 1 ->
     initial_guess Mh e = Ok (Mh / (e - 1)) /\
     solve_H Mh e tol maxit =
       newton_loop (Z.to_nat maxit) Mh e tol (Mh / (e - 1))).
Proof.
  intros He. unfold solve_H. rewrite initial_guess_ok by assumption.
  unfold guess. cbn [bind].
  split; intros HMh; destruct (Rlt_dec 1 (Rabs Mh)); try lra;
    split; reflexivity.
Qed.

Lemma initial_guess_bifurcation_witness :
  1 < 2 /\
  initial_guess 3 2 = Ok (arcsinh (3 / 2)) /\
  initial_guess (1 / 2) 2 = Ok (1 / 2 / (2 - 1)).
Proof.
  split; [lra |].
  split.
  - apply (initial_guess_bifurcation 3 2 default_tol default_maxit); [lra |].
    rewrite Rabs_pos_eq; lra.
  - apply (initial_guess_bifurcation (1 / 2) 2 default_tol default_maxit); [lra |].
    rewrite Rabs_pos_eq; lra.
Defined.




(** C6.  For every [e > 1] and every real [H] the Newton denominator
    [e * cosh H - 1] is strictly positive, so the division [- f / fp]
    never divides by zero, and [solve_H] never raises for a division by
    zero. *)
Theorem newton_denominator_positive (e : R) :
  1 < e ->
  (forall H, 0 < kepler_fp e H) /\
  (forall Mh H, newton_dH Mh e H <> Raise DivByZero) /\
  (forall Mh tol maxit, solve_H_checked Mh e tol maxit <> Error DivByZero).
Proof.
  intros He. split; [| split].
  - intros H. now apply kepler_fp_pos.
  - intros Mh H. rewrite newton_dH_ok by assumption. discriminate.
  - intros Mh tol maxit.
    destruct (solve_H_checked_cases Mh e tol maxit He)
      as [[Hov _] | [Hr [Hval _]]]; [rewrite Hov | rewrite Hval]; discriminate.
Qed.

Lemma newton_denominator_positive_witness :
  1 < 1.002 /\ 0 < kepler_fp 1.002 500.
Proof.
  split; [lra |].
  apply (newton_denominator_positive 1.002). lra.
Defined.

(** C7, as stated, fails in binary64: with the constants of [main] the
    distance of the perihelion sample, where [np.cosh] returns [1.0], is
    [abs(a * (e * 1.0 - 1.0)) = 1.3564999999999998] and not
    [q = 1.3565]; it is the magnitude of the perifocal [x] of that
    sample. *)
Lemma perihelion_distance_not_q :
  PrimFloat.eqb Binary64.r_perihelion Binary64.q_nominal = false /\
  PrimFloat.eqb Binary64.r_perihelion
                (PrimFloat.abs Binary64.x_perihelion) = true.
Proof. split; vm_compute; reflexivity. Qed.

(** C7 (amended).  For hyperbolic elements ([q > 0], [a < 0],
    [e = 1 + q / |a|]) the propagation returns on every grid whose offsets
    keep the solver and the time stamps within their ranges, and whenever
    it returns, the sample at an offset [t = 0] has [Mh = 0], [H = 0],
    distance [r = |a * (e - 1)|], which is [q] to within
    [1e-15 * (|a| + q)], perifocal [x = a * (e - 1)] and [y = 0]; [r] is
    non-negative at every sample. *)
Theorem perihelion_sample (q a e mu T_peri : R) (t_days : list R) :
  hyperbolic q a e -> 0 < mu ->
  (Forall (within_ranges a e mu T_peri) t_days ->
   exists tr, propagate_checked a e mu T_peri t_days = Value tr) /\
  (forall tr,
     propagate_checked a e mu T_peri t_days = Value tr ->
     (forall i, nth_error t_days i = Some 0 ->
        nth_error (traj_Mh tr) i = Some 0 /\
        exists s,
          sample_at tr i = Some s /\
          s_t s = 0 /\ s_H s = 0 /\
          s_r s = Rabs (a * (e - 1)) /\
          Rabs (s_r s - q) <= 1e-15 * (Rabs a + q) /\
          s_x s = a * (e - 1) /\ s_y s = 0) /\
     (forall i s, sample_at tr i = Some s -> 0 <= s_r s)).
Proof.
  intros Hyp Hmu. destruct (hyperbolic_e q a e Hyp) as [_ [He Hq]].
  split; [now apply propagate_checked_total |].
  intros tr Hc.
  pose proof (propagate_checked_inv a e mu T_peri t_days tr Hmu He Hc) as Hp.
  assert (Hr0 : Rabs (a * (e - 1)) = q).
  { rewrite Rabs_mult, (Rabs_pos_eq (e - 1)) by lra. exact Hq. }
  split.
  - intros i Hi. split.
    + pose proof Hp as Hp'. rewrite propagate_ok in Hp' by assumption.
      injection Hp' as <-. cbn. rewrite nth_error_map, Hi. cbn.
      f_equal. unfold Rdiv. ring.
    + rewrite (sample_at_propagate a e mu T_peri t_days tr i Hmu He Hp), Hi.
      eexists. split; [reflexivity |].
      unfold sample_of. cbn.
      replace (0 / tau_of a mu) with 0 by (unfold Rdiv; ring).
      rewrite anomaly_zero by assumption.
      rewrite cosh_0, sinh_0, Rmult_1_r.
      split; [reflexivity |]. split; [reflexivity |].
      split; [reflexivity |]. split; [| split; ring].
      rewrite Hr0. replace (q - q) with 0 by ring. rewrite Rabs_R0.
      destruct Hyp as [Hq0 _]. pose proof (Rabs_pos a).
      apply Rmult_le_pos; lra.
  - intros i s Hs.
    destruct (sample_at_checked a e mu T_peri t_days tr i s Hmu He Hc Hs)
      as [t [_ ->]].
    cbn. apply Rabs_pos.
Qed.

Lemma perihelion_sample_witness :
  hyperbolic q_nominal a_nominal e_nominal /\ 0 < mu_nominal /\
  exists tr,
    propagate_checked a_nominal e_nominal mu_nominal T_peri_nominal [-1; 0; 1]
      = Value tr /\
    exists s,
      sample_at tr 1 = Some s /\ s_H s = 0 /\
      s_r s = Rabs (a_nominal * (e_nominal - 1)).
Proof.
  split; [exact hyperbolic_nominal |]. split; [exact mu_nominal_pos |].
  destruct (perihelion_sample q_nominal a_nominal e_nominal mu_nominal
              T_peri_nominal [-1; 0; 1] hyperbolic_nominal mu_nominal_pos)
    as [Htot Hprop].
  destruct Htot as [tr Hc].
  { repeat (apply Forall_cons;
              [apply nominal_within_ranges, Rabs_le; lra |]).
    apply Forall_nil. }
  exists tr. split; [exact Hc |].
  destruct (Hprop tr Hc) as [H0 _].
  destruct (H0 1%nat eq_refl) as [_ [s [Hs [_ [HH [Hr _]]]]]].
  exists s. repeat split; assumption.
Defined.

(** With other elements than those of [main] the bounded loop of the
    solver shows in the distances: with [q = 0.002], [a = -1] (so
    [e = 1.002]) and [mu = 1] the time scale is 1; at [t = 1] the solver
    returns an unconverged [H >= 400], at [t = 2] an [H <= 4], and the
    distance at [t = 1] is the larger one although [0 < 1 < 2]. *)
Lemma distance_not_monotone :
  hyperbolic 0.002 (-1) 1.002 /\
  exists tr r1 r2,
    propagate (-1) 1.002 1 0 [1; 2] = Ok tr /\
    traj_r tr = [r1; r2] /\ r2 < r1.
Proof.
  assert (Hyp : hyperbolic 0.002 (-1) 1.002).
  { unfold hyperbolic, eccentricity. repeat split; try lra.
    rewrite Rabs_left by lra. replace (- -1) with 1 by lra.
    rewrite fdiv_ok by lra. cbn [bind]. f_equal. lra. }
  split; [exact Hyp |].
  assert (He : 1 < 1.002) by lra. assert (Hmu : 0 < 1) by lra.
  eexists. eexists. eexists.
  split; [apply propagate_ok; assumption |].
  split; [reflexivity |].
  cbn. rewrite tau_unit, !Rdiv_1_r.
  destruct solve_H_far as [H1 [Heq1 Hlo]].
  destruct solve_H_near as [H2 [Heq2 [H20 H24]]].
  assert (Ha1 : anomaly 1.002 1 = H1) by (unfold anomaly; now rewrite Heq1).
  assert (Ha2 : anomaly 1.002 2 = H2) by (unfold anomaly; now rewrite Heq2).
  rewrite Ha1, Ha2.
  apply (distance_lt_iff 0.002 (-1) 1.002 H2 H1 Hyp).
  rewrite !Rabs_pos_eq by lra. lra.
Qed.

(** C8, as stated, fails in binary64: with the constants of [main] the
    distance of the perihelion sample is [1.3564999999999998], one unit in
    the last place below the minimum [q = 1.3565] the claim gives to
    [r(0)]. *)
Lemma minimum_distance_not_q :
  PrimFloat.compare Binary64.r_perihelion Binary64.q_nominal = PrimFloat.FLt /\
  PrimFloat.leb Binary64.q_nominal Binary64.r_perihelion = false.
Proof. split; vm_compute; reflexivity. Qed.

(** C8 (amended).  For hyperbolic elements the propagation returns on
    every grid whose offsets keep the solver and the time stamps within
    their ranges, and whenever it returns: every sample has a distance of
    at least [|a * (e - 1)|], the distance at [t = 0]; two samples satisfy
    [r1 <= r2] whenever [|t1| / tau + 2e-9 <= |t2| / tau] and
    [e * cosh (|t2| / tau / (e - 1)) <= 1001]; and with the constants of
    [main] they satisfy [r1 < r2] whenever [|t2| <= 200] and
    [|t1| + 1e-6 <= |t2|]. *)
Theorem distance_order (q a e mu T_peri : R) (t_days : list R) :
  hyperbolic q a e -> 0 < mu ->
  (Forall (within_ranges a e mu T_peri) t_days ->
   exists tr, propagate_checked a e mu T_peri t_days = Value tr) /\
  (forall tr,
     propagate_checked a e mu T_peri t_days = Value tr ->
     (forall i s, sample_at tr i = Some s ->
        Rabs (a * (e - 1)) <= s_r s /\
        (s_t s = 0 -> s_r s = Rabs (a * (e - 1)))) /\
     (forall i j s1 s2,
        sample_at tr i = Some s1 -> sample_at tr j = Some s2 ->
        e * cosh (Rabs (s_t s2) / tau_of a mu / (e - 1)) <= 1001 ->
        Rabs (s_t s1) / tau_of a mu + 2e-9 <= Rabs (s_t s2) / tau_of a mu ->
        s_r s1 <= s_r s2) /\
     (q = q_nominal -> a = a_nominal -> mu = mu_nominal ->
      forall i j s1 s2,
        sample_at tr i = Some s1 -> sample_at tr j = Some s2 ->
        Rabs (s_t s2) <= 200 -> Rabs (s_t s1) + 1e-6 <= Rabs (s_t s2) ->
        s_r s1 < s_r s2)).
Proof.
  intros Hyp Hmu. destruct (hyperbolic_e q a e Hyp) as [Hedef [He Hq]].
  split; [now apply propagate_checked_total |].
  intros tr Hc.
  assert (Hinv : forall i s,
             sample_at tr i = Some s ->
             exists t, s = sample_of a e mu T_peri t).
  { intros i s Hs.
    destruct (sample_at_checked a e mu T_peri t_days tr i s Hmu He Hc Hs)
      as [t [_ ->]].
    now exists t. }
  assert (Hr0 : Rabs (a * (e - 1)) = q).
  { rewrite Rabs_mult, (Rabs_pos_eq (e - 1)) by lra. exact Hq. }
  split; [| split].
  - intros i s Hs. destruct (Hinv i s Hs) as [t ->]. cbn.
    rewrite Hr0, (distance_hyperbolic q a e _ Hyp). split.
    + pose proof (cosh_ge_1 (anomaly e (t / tau_of a mu))).
      assert (0 <= Rabs a * e) by (apply Rmult_le_pos; [apply Rabs_pos | lra]).
      nra.
    + intros ->. replace (0 / tau_of a mu) with 0 by (unfold Rdiv; ring).
      rewrite anomaly_zero by assumption. rewrite cosh_0. ring.
  - intros i j s1 s2 Hs1 Hs2.
    destruct (Hinv i s1 Hs1) as [t1 ->]. destruct (Hinv j s2 Hs2) as [t2 ->].
    intros Hdom Hsep. left.
    now apply (distance_lt_separated q a e mu T_peri t1 t2).
  - intros -> -> -> i j s1 s2 Hs1 Hs2.
    assert (Hen : e = e_nominal) by exact Hedef. subst e.
    destruct (Hinv i s1 Hs1) as [t1 ->]. destruct (Hinv j s2 Hs2) as [t2 ->].
    intros Hrange Hsep.
    exact (nominal_distance_increasing t1 t2 Hrange Hsep).
Qed.

Lemma distance_order_witness :
  hyperbolic q_nominal a_nominal e_nominal /\ 0 < mu_nominal /\
  exists tr,
    propagate_checked a_nominal e_nominal mu_nominal T_peri_nominal [0; 10]
      = Value tr /\
    forall i s, sample_at tr i = Some s ->
                Rabs (a_nominal * (e_nominal - 1)) <= s_r s.
Proof.
  split; [exact hyperbolic_nominal |]. split; [exact mu_nominal_pos |].
  destruct (distance_order q_nominal a_nominal e_nominal mu_nominal
              T_peri_nominal [0; 10] hyperbolic_nominal mu_nominal_pos)
    as [Htot Hprop].
  destruct Htot as [tr Hc].
  { repeat (apply Forall_cons;
              [apply nominal_within_ranges, Rabs_le; lra |]).
    apply Forall_nil. }
  exists tr. split; [exact Hc |].
  destruct (Hprop tr Hc) as [Hmin _].
  intros i s Hs. exact (proj1 (Hmin i s Hs)).
Defined.

(** C9, as stated, fails: with the constants of [main] and the options
    [--tmin 0 --tmax 3000000 --points 2] the grid is [[0; 3000000]]; the
    solver returns at both offsets, and the time stamp of the second one,
    [T_peri + timedelta(days=3000000)], is beyond the year 9999: line 88
    raises OverflowError and no sequence is produced. *)
Lemma timestamp_out_of_range :
  linspace 0 3000000 2 = Ok [0; 3000000] /\
  main_trajectory_checked k_gauss q_nominal a_nominal T_peri_nominal
                          0 3000000 2 = Overflow.
Proof.
  split; [apply linspace_two |].
  pose proof e_nominal_bounds as [He0 He1].
  assert (He : 1 < e_nominal) by lra.
  unfold main_trajectory_checked.
  destruct hyperbolic_nominal as [_ [_ Hecc]]. rewrite Hecc.
  cbn [lift obind]. rewrite linspace_two. cbn [lift obind].
  change (k_gauss ^ 2) with mu_nominal.
  rewrite propagate_checked_split; [| exact mu_nominal_pos | exact He |].
  - cbn [omapM obind].
    rewrite add_days_in.
    + cbn [obind]. rewrite add_days_late; [reflexivity |].
      unfold datetime_max, T_peri_nominal. lra.
    + rewrite Rabs_R0. unfold timedelta_max_days. lra.
    + unfold datetime_min, datetime_max, T_peri_nominal. lra.
  - intros t [<- | [<- | []]].
    + apply solve_H_checked_safe; [exact He |].
      replace (0 / tau_of a_nominal mu_nominal) with 0 by (unfold Rdiv; ring).
      rewrite Rabs_R0. unfold sinh_max_arg, Rdiv. lra.
    + exact far_offset_in_range.
Qed.

(** C9 (amended).  For every offset grid whose offsets keep the solver and
    the time stamps within their ranges the propagation returns, and
    whenever it returns, the sequences of anomalies, distances, perifocal
    coordinates and time stamps all have the length of the grid, and the
    sample at position [i] is the one computed from the offset at position
    [i]; a grid requested with [N >= 0] samples has length [N]. *)
Theorem grid_shape (a e mu T_peri : R) (t_days : list R) :
  0 < mu -> 1 < e ->
  (Forall (within_ranges a e mu T_peri) t_days ->
   exists tr, propagate_checked a e mu T_peri t_days = Value tr) /\
  (forall tr,
     propagate_checked a e mu T_peri t_days = Value tr ->
     traj_t_days tr = t_days /\
     length (traj_H tr) = length t_days /\
     length (traj_r tr) = length t_days /\
     length (traj_x_peri tr) = length t_days /\
     length (traj_y_peri tr) = length t_days /\
     length (traj_times tr) = length t_days /\
     (forall i t, nth_error t_days i = Some t ->
        exists s,
          sample_at tr i = Some s /\
          s_t s = t /\
          solve_H_checked (t / tau_of a mu) e default_tol default_maxit
            = Value (s_H s) /\
          s_r s = Rabs (a * (e * cosh (s_H s) - 1)) /\
          s_x s = a * (e - cosh (s_H s)) /\
          s_y s = a * sqrt (e ^ 2 - 1) * sinh (s_H s)) /\
     (forall i, nth_error t_days i = None -> sample_at tr i = None)) /\
  (forall tmin tmax points, (0 <= points)%Z ->
     exists grid,
       linspace tmin tmax points = Ok grid /\
       length grid = Z.to_nat points).
Proof.
  intros Hmu He. split; [now apply propagate_checked_total |].
  split; [| intros tmin tmax points Hpts; now apply linspace_length].
  intros tr Hc.
  pose proof (propagate_checked_inv a e mu T_peri t_days tr Hmu He Hc) as Hp.
  destruct (propagate_lengths a e mu T_peri t_days tr Hmu He Hp)
    as [Ht [_ [HH [Hr [Hx [Hy Htm]]]]]].
  repeat (split; [assumption |]).
  split.
  - intros i t Hi.
    exists (sample_of a e mu T_peri t).
    rewrite (sample_at_propagate a e mu T_peri t_days tr i Hmu He Hp), Hi.
    split; [reflexivity |]. split; [reflexivity |].
    split; [| repeat split; reflexivity].
    apply (propagate_checked_solver a e mu T_peri t_days tr t Hmu He Hc).
    now apply nth_error_In with i.
  - intros i Hi.
    rewrite (sample_at_propagate a e mu T_peri t_days tr i Hmu He Hp), Hi.
    reflexivity.
Qed.

Lemma grid_shape_witness :
  0 < mu_nominal /\ 1 < e_nominal /\
  exists tr,
    propagate_checked a_nominal e_nominal mu_nominal T_peri_nominal
                      [-200; 0; 200] = Value tr /\
    length (traj_r tr) = 3%nat /\ length (traj_times tr) = 3%nat.
Proof.
  assert (He : 1 < e_nominal)
    by exact (proj1 (proj2 (hyperbolic_e _ _ _ hyperbolic_nominal))).
  split; [exact mu_nominal_pos |]. split; [exact He |].
  destruct (grid_shape a_nominal e_nominal mu_nominal T_peri_nominal
              [-200; 0; 200] mu_nominal_pos He) as [Htot [Hshape _]].
  destruct Htot as [tr Hc].
  { repeat (apply Forall_cons;
              [apply nominal_within_ranges, Rabs_le; lra |]).
    apply Forall_nil. }
  exists tr. split; [exact Hc |].
  destruct (Hshape tr Hc) as [_ [_ [Hr [_ [_ [Htm _]]]]]].
  split; assumption.
Defined.

(** C10, as stated, fails in binary64: with the constants of [main] the
    perihelion sample of the default run has
    [r = 1.3564999999999998 < q = 1.3565]. *)
Lemma perihelion_distance_below_q :
  PrimFloat.ltb Binary64.r_perihelion Binary64.q_nominal = true.
Proof. vm_compute. reflexivity. Qed.

(** C10 (amended).  For hyperbolic elements ([q > 0], [a < 0],
    [e = 1 + q / |a|]) the propagation returns on every grid whose offsets
    keep the solver and the time stamps within their ranges, and whenever
    it returns, every sample, at any offset, has distance
    [r >= |a * (e - 1)|], the distance of the perihelion sample, which is
    [q] to within [1e-15 * (|a| + q)]. *)
Theorem distance_at_least_perihelion (q a e mu T_peri : R) (t_days : list R) :
  hyperbolic q a e -> 0 < mu ->
  (Forall (within_ranges a e mu T_peri) t_days ->
   exists tr, propagate_checked a e mu T_peri t_days = Value tr) /\
  (forall tr,
     propagate_checked a e mu T_peri t_days = Value tr ->
     Forall (fun r => Rabs (a * (e - 1)) <= r) (traj_r tr) /\
     (forall i s, sample_at tr i = Some s ->
        Rabs (a * (e - 1)) <= s_r s /\
        q - 1e-15 * (Rabs a + q) <= s_r s)).
Proof.
  intros Hyp Hmu. destruct (hyperbolic_e q a e Hyp) as [_ [He Hq]].
  split; [now apply propagate_checked_total |].
  intros tr Hc.
  pose proof (propagate_checked_inv a e mu T_peri t_days tr Hmu He Hc) as Hp.
  assert (Hr0 : Rabs (a * (e - 1)) = q).
  { rewrite Rabs_mult, (Rabs_pos_eq (e - 1)) by lra. exact Hq. }
  assert (Hr : forall H, Rabs (a * (e - 1)) <= Rabs (a * (e * cosh H - 1))).
  { intros H. rewrite Hr0, (distance_hyperbolic q a e H Hyp).
    pose proof (cosh_ge_1 H).
    assert (0 <= Rabs a * e) by (apply Rmult_le_pos; [apply Rabs_pos | lra]).
    nra. }
  split.
  - pose proof Hp as Hp'. rewrite propagate_ok in Hp' by assumption.
    injection Hp' as <-. cbn. apply Forall_map, Forall_forall.
    intros t _. apply Hr.
  - intros i s Hs.
    destruct (sample_at_checked a e mu T_peri t_days tr i s Hmu He Hc Hs)
      as [t [_ ->]].
    cbn. split; [apply Hr |].
    pose proof (Hr (anomaly e (t / tau_of a mu))) as Hle. rewrite Hr0 in Hle.
    destruct Hyp as [Hq0 _]. pose proof (Rabs_pos a).
    assert (0 <= 1e-15 * (Rabs a + q)) by (apply Rmult_le_pos; lra).
    lra.
Qed.

Lemma distance_at_least_perihelion_witness :
  hyperbolic q_nominal a_nominal e_nominal /\ 0 < mu_nominal /\
  exists tr,
    propagate_checked a_nominal e_nominal mu_nominal T_peri_nominal
                      [-200; 0; 200] = Value tr /\
    Forall (fun r => Rabs (a_nominal * (e_nominal - 1)) <= r) (traj_r tr).
Proof.
  split; [exact hyperbolic_nominal |]. split; [exact mu_nominal_pos |].
  destruct (distance_at_least_perihelion q_nominal a_nominal e_nominal
              mu_nominal T_peri_nominal [-200; 0; 200]
              hyperbolic_nominal mu_nominal_pos) as [Htot Hprop].
  destruct Htot as [tr Hc].
  { repeat (apply Forall_cons;
              [apply nominal_within_ranges, Rabs_le; lra |]).
    apply Forall_nil. }
  exists tr. split; [exact Hc |].
  exact (proj1 (Hprop tr Hc)).
Defined.

(** ** Further properties of the solver *)

Section SolverFurther.

Lemma loop_without_break (n : nat) (Mh e tol H : R) :
  tol <= 0 -> newton_loop n Mh e tol H = newton_iter n Mh e H.
Proof.
  intros Htol. revert H. induction n as [| n IH]; intros H; [reflexivity |].
  cbn [newton_loop newton_iter].
  destruct (newton_dH Mh e H) as [dH | x]; cbn [bind]; [| reflexivity].
  pose proof (Rabs_pos dH).
  destruct (Rlt_dec (Rabs dH) tol); [lra | apply IH].
Qed.



End SolverFurther.



(** X3.  With [tol <= 0] the test [|dH| < tol] never succeeds: [solve_H]
    makes all [maxit] updates from the initial guess. *)
Theorem nonpositive_tol_runs_all_turns (Mh e tol : R) (maxit : Z) :
  tol <= 0 ->
  solve_H Mh e tol maxit =
    (H0 <- initial_guess Mh e ;; newton_iter (Z.to_nat maxit) Mh e H0).
Proof.
  intros Htol. unfold solve_H.
  destruct (initial_guess Mh e) as [H0 | x]; cbn [bind]; [| reflexivity].
  now apply loop_without_break.
Qed.

Lemma nonpositive_tol_runs_all_turns_witness :
  0 <= 0 /\
  solve_H 3 2 0 default_maxit =
    (H0 <- initial_guess 3 2 ;; newton_iter (Z.to_nat default_maxit) 3 2 H0).
Proof.
  split; [lra |].
  apply (nonpositive_tol_runs_all_turns 3 2 0 default_maxit). lra.
Defined.

(** X4.  At [e = 1] with [|Mh| <= 1] the initial guess [Mh / (e - 1)]
    divides by zero: [solve_H] raises, whatever [tol] and [maxit]. *)
Theorem parabolic_guess_raises (Mh tol : R) (maxit : Z) :
  Rabs Mh <= 1 -> solve_H Mh 1 tol maxit = Raise DivByZero.
Proof.
  intros HMh. unfold solve_H, initial_guess.
  destruct (Rlt_dec 1 (Rabs Mh)); [lra |].
  replace (1 - 1) with 0 by lra. rewrite fdiv_zero. reflexivity.
Qed.

Lemma parabolic_guess_raises_witness :
  Rabs 0 <= 1 /\ solve_H 0 1 default_tol default_maxit = Raise DivByZero.
Proof.
  assert (H0 : Rabs 0 <= 1) by (rewrite Rabs_R0; lra).
  split; [exact H0 |].
  apply (parabolic_guess_raises 0 default_tol default_maxit). exact H0.
Defined.

(** ** Further properties of the propagation *)

Section PropagationFurther.

Lemma sample_inv (a e mu T_peri : R) (t_days : list R) (tr : Trajectory)
      (i : nat) (s : Sample) :
  0 < mu -> 1 < e ->
  propagate a e mu T_peri t_days = Ok tr ->
  sample_at tr i = Some s ->
  exists t, nth_error t_days i = Some t /\ s = sample_of a e mu T_peri t.
Proof.
  intros Hmu He Hp Hs.
  rewrite (sample_at_propagate a e mu T_peri t_days tr i Hmu He Hp) in Hs.
  destruct (nth_error t_days i) as [t |]; [| discriminate].
  injection Hs as <-. now exists t.
Qed.

Lemma anomaly_opp (e Mh : R) : 1 < e -> anomaly e (- Mh) = - anomaly e Mh.
Proof.
  intros He.
  pose proof (solve_H_anomaly e Mh He) as H1.
  pose proof (solve_H_anomaly e (- Mh) He) as H2.
  rewrite solve_H_opp, H1 in H2. cbn in H2. now injection H2 as <-.
Qed.



End PropagationFurther.





(** X9.  For [e > 1] two samples at opposite offsets mirror each other:
    opposite anomalies, equal distances, equal [x] and opposite [y]. *)
Theorem mirror_samples (a e mu T_peri : R) (t_days : list R) :
  0 < mu -> 1 < e ->
  exists tr,
    propagate a e mu T_peri t_days = Ok tr /\
    forall i j s1 s2,
      sample_at tr i = Some s1 -> sample_at tr j = Some s2 ->
      s_t s2 = - s_t s1 ->
      s_H s2 = - s_H s1 /\ s_r s2 = s_r s1 /\
      s_x s2 = s_x s1 /\ s_y s2 = - s_y s1.
Proof.
  intros Hmu He.
  destruct (propagate_total a e mu T_peri t_days Hmu He) as [tr Hp].
  exists tr. split; [exact Hp |]. intros i j s1 s2 Hs1 Hs2.
  destruct (sample_inv a e mu T_peri t_days tr i s1 Hmu He Hp Hs1) as [t1 [_ ->]].
  destruct (sample_inv a e mu T_peri t_days tr j s2 Hmu He Hp Hs2) as [t2 [_ ->]].
  cbn [sample_of s_t s_H s_r s_x s_y]. intros ->.
  replace (- t1 / tau_of a mu) with (- (t1 / tau_of a mu))
    by (unfold Rdiv; ring).
  rewrite anomaly_opp by assumption. rewrite cosh_opp, sinh_opp.
  repeat split; ring.
Qed.

Lemma mirror_samples_witness :
  0 < mu_nominal /\ 1 < e_nominal /\
  exists tr,
    propagate a_nominal e_nominal mu_nominal T_peri_nominal [-50; 50] = Ok tr /\
    exists s1 s2,
      sample_at tr 0 = Some s1 /\ sample_at tr 1 = Some s2 /\
      s_r s2 = s_r s1 /\ s_y s2 = - s_y s1.
Proof.
  assert (He : 1 < e_nominal) by (pose proof e_nominal_bounds; lra).
  split; [exact mu_nominal_pos |]. split; [exact He |].
  destruct (mirror_samples a_nominal e_nominal mu_nominal
              T_peri_nominal [-50; 50] mu_nominal_pos He) as [tr [Hp Hm]].
  exists tr. split; [exact Hp |].
  pose proof (sample_at_propagate _ _ _ _ _ tr 0 mu_nominal_pos He Hp) as H0.
  pose proof (sample_at_propagate _ _ _ _ _ tr 1 mu_nominal_pos He Hp) as H1.
  cbn in H0, H1.
  eexists. eexists. split; [exact H0 |]. split; [exact H1 |].
  destruct (Hm 0%nat 1%nat _ _ H0 H1) as [_ [Hr [_ Hy]]].
  - cbn. lra.
  - split; assumption.
Defined.



(** X11.  A negative [--points] makes [np.linspace] raise: the numeric
    part of [main] stops there with no trajectory. *)
Theorem negative_points_raises (k q a T_peri tmin tmax : R) (points : Z) :
  a <> 0 -> (points < 0)%Z ->
  main_trajectory k q a T_peri tmin tmax points = Raise CountError.
Proof.
  intros Ha Hneg. unfold main_trajectory, eccentricity.
  rewrite fdiv_ok by (apply Rabs_no_R0; assumption). cbn [bind].
  unfold linspace. destruct (Z.ltb_spec points 0); [reflexivity | lia].
Qed.

Lemma negative_points_raises_witness :
  a_nominal <> 0 /\ (-1 < 0)%Z /\
  main_trajectory k_gauss q_nominal a_nominal T_peri_nominal
                  default_tmin default_tmax (-1) = Raise CountError.
Proof.
  assert (Ha : a_nominal <> 0) by (unfold a_nominal; lra).
  split; [exact Ha |]. split; [reflexivity |].
  apply (negative_points_raises k_gauss q_nominal a_nominal T_peri_nominal
           default_tmin default_tmax (-1) Ha). reflexivity.
Defined.

(** ** The grid of main *)

Section Grid.

Lemma linspace_formula (start stop : R) (num : Z) :
  (2 <= num)%Z ->
  linspace start stop num =
    Ok (map (fun i => start + INR i * ((stop - start) / IZR (num - 1)))
            (seq 0 (Z.to_nat num))).
Proof.
  intros Hnum. unfold linspace.
  destruct (Z.ltb_spec num 0) as [Hneg | _]; [lia |].
  destruct (Z.ltb_spec 0 (num - 1)) as [_ | Hbad]; [| lia].
  destruct (Z.ltb_spec 1 num) as [_ | Hbad]; [| lia].
  f_equal.
  destruct (Z.to_nat num) as [| m] eqn:Hn; [lia |].
  rewrite seq_S, !map_app. cbn [map]. rewrite removelast_last.
  f_equal.
  - rewrite map_map. apply map_ext. intros i. ring.
  - f_equal. cbn [Nat.add].
    assert (Hm : INR m = IZR (num - 1)).
    { rewrite INR_IZR_INZ. f_equal. lia. }
    rewrite Hm. field.
    apply not_0_IZR. lia.
Qed.

Lemma linspace_single (start stop : R) : linspace start stop 1 = Ok [start].
Proof.
  unfold linspace. cbn [Z.ltb Z.compare Z.sub Z.add Z.opp Z.pos_sub].
  change (Z.to_nat 1) with 1%nat. cbn [seq map INR].
  replace (0 * (stop - start) + start) with start by ring. reflexivity.
Qed.

Lemma linspace_none (start stop : R) : linspace start stop 0 = Ok [].
Proof. reflexivity. Qed.

Lemma linspace_nth (start stop : R) (num : Z) (grid : list R) (i : nat) (t : R) :
  (2 <= num)%Z ->
  linspace start stop num = Ok grid ->
  nth_error grid i = Some t ->
  (i < Z.to_nat num)%nat /\
  t = start + INR i * ((stop - start) / IZR (num - 1)).
Proof.
  intros Hnum Hg Hi. rewrite linspace_formula in Hg by assumption.
  injection Hg as <-.
  rewrite nth_error_map, nth_error_seq in Hi.
  destruct (Nat.ltb_spec i (Z.to_nat num)) as [Hlt | Hge]; [| discriminate].
  cbn in Hi. injection Hi as <-. split; [assumption | reflexivity].
Qed.

Lemma Rabs_bound_inv (x b : R) : Rabs x <= b -> - b <= x <= b.
Proof.
  intros Hx. pose proof (Rle_abs x). pose proof (Rle_abs (- x)) as Hn.
  rewrite Rabs_Ropp in Hn. lra.
Qed.

(** Every sample of the grid lies between the two ends. *)
Lemma linspace_within (start stop bound : R) (num : Z) (grid : list R)
      (i : nat) (t : R) :
  Rabs start <= bound -> Rabs stop <= bound ->
  linspace start stop num = Ok grid ->
  nth_error grid i = Some t ->
  Rabs t <= bound.
Proof.
  intros Hs He Hg Hi.
  destruct (Z.lt_ge_cases num 2) as [Hsmall | Hbig].
  - destruct (Z.lt_ge_cases num 0) as [Hneg | Hnn].
    + unfold linspace in Hg. destruct (Z.ltb_spec num 0); [discriminate | lia].
    + assert (Hcases : num = 0%Z \/ num = 1%Z) by lia.
      destruct Hcases as [-> | ->].
      * rewrite linspace_none in Hg. injection Hg as <-.
        destruct i; discriminate.
      * rewrite linspace_single in Hg. injection Hg as <-.
        destruct i as [| i]; [| destruct i; discriminate].
        cbn in Hi. injection Hi as <-. assumption.
  - destruct (linspace_nth start stop num grid i t Hbig Hg Hi) as [Hlt ->].
    assert (Hd : 0 < IZR (num - 1)) by (apply IZR_lt; lia).
    assert (Hle : INR i <= IZR (num - 1)).
    { rewrite INR_IZR_INZ. apply IZR_le. lia. }
    pose proof (pos_INR i) as Hi0.
    set (lam := INR i / IZR (num - 1)).
    assert (Hlam : 0 <= lam <= 1).
    { unfold lam. split.
      - apply Rmult_le_pos; [assumption | left; now apply Rinv_0_lt_compat].
      - apply Rmult_le_reg_r with (IZR (num - 1)); [assumption |].
        unfold Rdiv. rewrite Rmult_assoc, Rinv_l by lra. lra. }
    replace (start + INR i * ((stop - start) / IZR (num - 1)))
      with ((1 - lam) * start + lam * stop)
      by (unfold lam; field; lra).
    apply Rabs_bound_inv in Hs. apply Rabs_bound_inv in He.
    apply Rabs_le. split; nra.
Qed.

Lemma main_trajectory_ok (k q a e T_peri tmin tmax : R) (points : Z) :
  hyperbolic q a e -> k <> 0 -> (0 <= points)%Z ->
  exists grid tr,
    linspace tmin tmax points = Ok grid /\
    length grid = Z.to_nat points /\
    main_trajectory k q a T_peri tmin tmax points = Ok tr /\
    propagate a e (k ^ 2) T_peri grid = Ok tr.
Proof.
  intros Hyp Hk Hpts. destruct (hyperbolic_e q a e Hyp) as [_ [He _]].
  assert (Hmu : 0 < k ^ 2) by nra.
  destruct (linspace_length tmin tmax points Hpts) as [grid [Hg Hlen]].
  destruct (propagate_total a e (k ^ 2) T_peri grid Hmu He) as [tr Hp].
  exists grid, tr. repeat split; try assumption.
  destruct Hyp as [_ [_ Hecc]].
  unfold main_trajectory. rewrite Hecc. cbn [bind]. rewrite Hg. cbn [bind].
  exact Hp.
Qed.

Lemma xytext_time_none (times : list R) :
  xytext_time times = None <-> times = [].
Proof.
  unfold xytext_time. split.
  - intros Hn. apply nth_error_None in Hn.
    destruct times as [| t times]; [reflexivity |].
    exfalso. cbn [length] in Hn.
    pose proof (Nat.div_lt (S (length times)) 2 ltac:(lia) ltac:(lia)). lia.
  - intros ->. reflexivity.
Qed.

End Grid.

Section GridSamples.

Lemma linspace_nth_ok (start stop : R) (num : Z) (grid : list R) (i : nat) :
  (2 <= num)%Z ->
  linspace start stop num = Ok grid ->
  (i < Z.to_nat num)%nat ->
  nth_error grid i = Some (start + INR i * ((stop - start) / IZR (num - 1))).
Proof.
  intros Hnum Hg Hi. rewrite linspace_formula in Hg by assumption.
  assert (Hgrid : grid =
            map (fun i0 => start + INR i0 * ((stop - start) / IZR (num - 1)))
                (seq 0 (Z.to_nat num))) by congruence.
  rewrite Hgrid, nth_error_map, nth_error_seq.
  destruct (Nat.ltb_spec i (Z.to_nat num)); [reflexivity | lia].
Qed.

Lemma grid_step_gap (start stop : R) (num : Z) (i j : nat) :
  (2 <= num)%Z -> start < stop -> (i < j)%nat ->
  (stop - start) / IZR (num - 1) <=
  (start + INR j * ((stop - start) / IZR (num - 1))) -
  (start + INR i * ((stop - start) / IZR (num - 1))).
Proof.
  intros Hnum Hlt Hij.
  assert (Hd : 0 < IZR (num - 1)) by (apply IZR_lt; lia).
  assert (Hstep : 0 < (stop - start) / IZR (num - 1))
    by (apply Rdiv_lt_0_compat; lra).
  assert (Hinr : INR i + 1 <= INR j).
  { rewrite <- S_INR. apply le_INR. lia. }
  nra.
Qed.

End GridSamples.

(** X12.  The grid that [np.linspace(tmin, tmax, points)] gives to [main],
    for ends within the range of [timedelta]: empty for [points = 0], the
    single sample [tmin] for [points = 1], and for [points >= 2] a list of
    [points] samples that starts at [tmin], ends at [tmax] and, when
    [tmin = tmax] or [tmin + 1e-290 <= tmax] (a range whose step is not
    subnormal), never decreases and stays between the two ends. *)
Theorem grid_samples (tmin tmax : R) (points : Z) :
  Rabs tmin <= timedelta_max_days -> Rabs tmax <= timedelta_max_days ->
  (points = 0%Z -> linspace tmin tmax points = Ok []) /\
  (points = 1%Z -> linspace tmin tmax points = Ok [tmin]) /\
  ((2 <= points)%Z ->
   exists grid,
     linspace tmin tmax points = Ok grid /\
     length grid = Z.to_nat points /\
     nth_error grid 0 = Some tmin /\
     nth_error grid (Z.to_nat points - 1) = Some tmax /\
     (tmin = tmax \/ tmin + 1e-290 <= tmax ->
      forall i j ti tj, (i <= j)%nat ->
        nth_error grid i = Some ti -> nth_error grid j = Some tj ->
        tmin <= ti /\ ti <= tj /\ tj <= tmax)).
Proof.
  intros _ _.
  split; [intros ->; apply linspace_none |].
  split; [intros ->; apply linspace_single |].
  intros Hnum.
  destruct (linspace_length tmin tmax points ltac:(lia)) as [grid [Hg Hlen]].
  exists grid. split; [exact Hg |]. split; [exact Hlen |].
  assert (Hd : 0 < IZR (points - 1)) by (apply IZR_lt; lia).
  split; [| split].
  - rewrite (linspace_nth_ok tmin tmax points grid 0 Hnum Hg) by lia.
    f_equal. cbn [INR]. ring.
  - rewrite (linspace_nth_ok tmin tmax points grid _ Hnum Hg) by lia.
    f_equal.
    assert (Hm : INR (Z.to_nat points - 1) = IZR (points - 1)).
    { rewrite INR_IZR_INZ. f_equal. lia. }
    rewrite Hm. field. lra.
  - intros Hsep i j ti tj Hij Hi Hj.
    assert (Hle : tmin <= tmax) by (destruct Hsep as [-> | Hsep]; lra).
    destruct (linspace_nth tmin tmax points grid i ti Hnum Hg Hi) as [Hin ->].
    destruct (linspace_nth tmin tmax points grid j tj Hnum Hg Hj) as [Hjn ->].
    set (step := (tmax - tmin) / IZR (points - 1)).
    assert (Hstep : 0 <= step).
    { apply Rmult_le_pos; [lra | left; now apply Rinv_0_lt_compat]. }
    assert (Hfull : IZR (points - 1) * step = tmax - tmin)
      by (unfold step; field; lra).
    pose proof (pos_INR i) as Hi0.
    assert (Hij' : INR i <= INR j) by (apply le_INR; lia).
    assert (Hjm : INR j <= IZR (points - 1)).
    { rewrite INR_IZR_INZ. apply IZR_le. lia. }
    assert (H1 : 0 <= INR i * step) by (apply Rmult_le_pos; assumption).
    assert (H2 : INR i * step <= INR j * step)
      by (apply Rmult_le_compat_r; assumption).
    assert (H3 : INR j * step <= IZR (points - 1) * step)
      by (apply Rmult_le_compat_r; assumption).
    lra.
Qed.

Lemma grid_samples_witness :
  Rabs (-200) <= timedelta_max_days /\ Rabs 200 <= timedelta_max_days /\
  exists grid,
    linspace (-200) 200 2001 = Ok grid /\
    length grid = 2001%nat /\
    nth_error grid 0 = Some (-200) /\ nth_error grid 2000 = Some 200.
Proof.
  assert (H1 : Rabs (-200) <= timedelta_max_days)
    by (unfold timedelta_max_days; apply Rabs_le; lra).
  assert (H2 : Rabs 200 <= timedelta_max_days)
    by (unfold timedelta_max_days; apply Rabs_le; lra).
  split; [exact H1 |]. split; [exact H2 |].
  destruct (grid_samples (-200) 200 2001 H1 H2) as [_ [_ Hbig]].
  destruct (Hbig ltac:(lia)) as [grid [Hg [Hlen [Hfirst [Hlast _]]]]].
  exists grid. repeat split; assumption.
Defined.

(** X14.  For hyperbolic elements, with [--points 0] the numeric part of
    [main] returns an empty trajectory; and whenever it returns, it has
    [points] time stamps, and the lookup [times[len(times) // 2]] of the
    annotation fails exactly when [points = 0]. *)
Theorem annotation_needs_a_sample (k q a e T_peri tmin tmax : R) :
  hyperbolic q a e -> k <> 0 ->
  (exists tr0,
     main_trajectory_checked k q a T_peri tmin tmax 0 = Value tr0 /\
     traj_times tr0 = [] /\
     xytext_time (traj_times tr0) = None) /\
  (forall points tr,
     main_trajectory_checked k q a T_peri tmin tmax points = Value tr ->
     length (traj_times tr) = Z.to_nat points /\
     (xytext_time (traj_times tr) = None <-> points = 0%Z)).
Proof.
  intros Hyp Hk. destruct (hyperbolic_e q a e Hyp) as [_ [He _]].
  assert (Hmu : 0 < k ^ 2) by nra.
  assert (Hlen : forall points tr,
             main_trajectory_checked k q a T_peri tmin tmax points = Value tr ->
             (0 <= points)%Z /\ length (traj_times tr) = Z.to_nat points).
  { intros points tr Hm.
    destruct (main_trajectory_checked_inv k q a e T_peri tmin tmax points tr
                Hyp Hk Hm) as [Hnn [grid [Hg [Hgl [_ Hp]]]]].
    split; [assumption |].
    destruct (propagate_lengths a e (k ^ 2) T_peri grid tr Hmu He Hp)
      as [_ [_ [_ [_ [_ [_ Htm]]]]]].
    congruence. }
  split.
  - destruct (propagate_checked_total a e (k ^ 2) T_peri [] Hmu He
                (Forall_nil _)) as [tr0 Hc].
    assert (Hm : main_trajectory_checked k q a T_peri tmin tmax 0 = Value tr0).
    { unfold main_trajectory_checked. destruct Hyp as [_ [_ Hecc]].
      rewrite Hecc. cbn [lift obind]. rewrite linspace_none.
      cbn [lift obind]. exact Hc. }
    destruct (Hlen 0%Z tr0 Hm) as [_ Hl0].
    assert (Hnil : traj_times tr0 = []).
    { destruct (traj_times tr0); [reflexivity | discriminate]. }
    exists tr0. split; [exact Hm |]. split; [exact Hnil |].
    now apply xytext_time_none.
  - intros points tr Hm. destruct (Hlen points tr Hm) as [Hnn Hl].
    split; [exact Hl |].
    rewrite xytext_time_none. split.
    + intros Hnil. rewrite Hnil in Hl. cbn in Hl. lia.
    + intros ->. destruct (traj_times tr); [reflexivity | discriminate].
Qed.

Lemma annotation_needs_a_sample_witness :
  hyperbolic q_nominal a_nominal e_nominal /\ k_gauss <> 0 /\
  exists tr0,
    main_trajectory_checked k_gauss q_nominal a_nominal T_peri_nominal
                            default_tmin default_tmax 0 = Value tr0 /\
    xytext_time (traj_times tr0) = None.
Proof.
  assert (Hk : k_gauss <> 0) by (unfold k_gauss; lra).
  split; [exact hyperbolic_nominal |]. split; [exact Hk |].
  destruct (annotation_needs_a_sample k_gauss q_nominal a_nominal e_nominal
              T_peri_nominal default_tmin default_tmax
              hyperbolic_nominal Hk) as [[tr0 [Hm [_ Hx]]] _].
  exists tr0. split; assumption.
Defined.

Section NominalRun.

Lemma nominal_main_ok (tmin tmax : R) (points : Z) :
  (0 <= points)%Z ->
  exists grid tr,
    linspace tmin tmax points = Ok grid /\
    length grid = Z.to_nat points /\
    main_trajectory k_gauss q_nominal a_nominal T_peri_nominal
                    tmin tmax points = Ok tr /\
    propagate a_nominal e_nominal mu_nominal T_peri_nominal grid = Ok tr.
Proof.
  intros Hpts.
  assert (Hk : k_gauss <> 0) by (unfold k_gauss; lra).
  exact (main_trajectory_ok k_gauss q_nominal a_nominal e_nominal
           T_peri_nominal tmin tmax points hyperbolic_nominal Hk Hpts).
Qed.

Lemma e_nominal_gt_1 : 1 < e_nominal.
Proof. pose proof e_nominal_bounds. lra. Qed.

End NominalRun.

(** X15.  With the constants of [main] and any options [--tmin], [--tmax]
    within 200 days of the perihelion, every sample of the run has an
    anomaly that satisfies the Kepler equation to [1e-9]:
    [|e * sinh H - H - t / tau| < 1e-9]. *)
Theorem nominal_run_residual (tmin tmax : R) (points : Z) :
  Rabs tmin <= 200 -> Rabs tmax <= 200 -> (0 <= points)%Z ->
  exists tr,
    main_trajectory k_gauss q_nominal a_nominal T_peri_nominal
                    tmin tmax points = Ok tr /\
    length (traj_H tr) = Z.to_nat points /\
    forall i s, sample_at tr i = Some s ->
      Rabs (e_nominal * sinh (s_H s) - s_H s
            - s_t s / tau_of a_nominal mu_nominal) < 1e-9.
Proof.
  intros Hmin Hmax Hpts.
  destruct (nominal_main_ok tmin tmax points Hpts)
    as [grid [tr [Hg [Hlen [Hmain Hp]]]]].
  pose proof e_nominal_gt_1 as He. pose proof mu_nominal_pos as Hmu.
  exists tr. split; [exact Hmain |]. split.
  - destruct (propagate_lengths _ _ _ _ _ tr Hmu He Hp) as [_ [_ [HH _]]].
    congruence.
  - intros i s Hs.
    destruct (sample_inv _ _ _ _ _ tr i s Hmu He Hp Hs) as [t [Hi ->]].
    cbn [sample_of s_H s_t].
    pose proof (linspace_within tmin tmax 200 points grid i t Hmin Hmax Hg Hi)
      as Ht.
    destruct (nominal_residual t Ht) as [H [Heq Hres]].
    rewrite solve_H_anomaly in Heq by assumption. injection Heq as <-.
    exact Hres.
Qed.

Lemma nominal_run_residual_witness :
  Rabs default_tmin <= 200 /\ Rabs default_tmax <= 200 /\
  (0 <= default_points)%Z /\
  exists tr,
    main_trajectory k_gauss q_nominal a_nominal T_peri_nominal
                    default_tmin default_tmax default_points = Ok tr /\
    length (traj_H tr) = Z.to_nat default_points.
Proof.
  assert (Hmin : Rabs default_tmin <= 200).
  { unfold default_tmin. rewrite Rabs_left by lra. lra. }
  assert (Hmax : Rabs default_tmax <= 200).
  { unfold default_tmax. rewrite Rabs_pos_eq by lra. lra. }
  split; [exact Hmin |]. split; [exact Hmax |]. split; [discriminate |].
  destruct (nominal_run_residual default_tmin default_tmax default_points
              Hmin Hmax) as [tr [Hm [Hl _]]]; [discriminate |].
  exists tr. split; assumption.
Defined.

(** X16.  With the constants of [main], options within 200 days of the
    perihelion, [tmin < tmax] and a grid step of at least [1e-6] days, the
    distances of the run are strictly increasing from any sample at
    [t >= 0] on and strictly decreasing up to any sample at [t <= 0]. *)
Theorem nominal_run_monotone (tmin tmax : R) (points : Z) :
  Rabs tmin <= 200 -> Rabs tmax <= 200 -> tmin < tmax ->
  (2 <= points)%Z -> 1e-6 * IZR (points - 1) <= tmax - tmin ->
  exists tr,
    main_trajectory k_gauss q_nominal a_nominal T_peri_nominal
                    tmin tmax points = Ok tr /\
    forall i j s1 s2, (i < j)%nat ->
      sample_at tr i = Some s1 -> sample_at tr j = Some s2 ->
      (0 <= s_t s1 -> s_r s1 < s_r s2) /\
      (s_t s2 <= 0 -> s_r s2 < s_r s1).
Proof.
  intros Hmin Hmax Hlt Hpts Hstep.
  destruct (nominal_main_ok tmin tmax points ltac:(lia))
    as [grid [tr [Hg [Hlen [Hmain Hp]]]]].
  pose proof e_nominal_gt_1 as He. pose proof mu_nominal_pos as Hmu.
  exists tr. split; [exact Hmain |].
  intros i j s1 s2 Hij Hs1 Hs2.
  destruct (sample_inv _ _ _ _ _ tr i s1 Hmu He Hp Hs1) as [t1 [Hi ->]].
  destruct (sample_inv _ _ _ _ _ tr j s2 Hmu He Hp Hs2) as [t2 [Hj ->]].
  pose proof (linspace_within tmin tmax 200 points grid i t1 Hmin Hmax Hg Hi)
    as Ht1.
  pose proof (linspace_within tmin tmax 200 points grid j t2 Hmin Hmax Hg Hj)
    as Ht2.
  destruct (linspace_nth tmin tmax points grid i t1 Hpts Hg Hi) as [_ Hf1].
  destruct (linspace_nth tmin tmax points grid j t2 Hpts Hg Hj) as [_ Hf2].
  pose proof (grid_step_gap tmin tmax points i j Hpts Hlt Hij) as Hgap.
  rewrite <- Hf1, <- Hf2 in Hgap.
  assert (Hd : 0 < IZR (points - 1)) by (apply IZR_lt; lia).
  assert (Hs : 1e-6 <= (tmax - tmin) / IZR (points - 1)).
  { apply Rmult_le_reg_r with (IZR (points - 1)); [assumption |].
    replace ((tmax - tmin) / IZR (points - 1) * IZR (points - 1))
      with (tmax - tmin) by (field; lra).
    assumption. }
  cbn [sample_of s_t]. split; intros Hsign.
  - apply nominal_distance_increasing; [assumption |].
    rewrite !Rabs_pos_eq by lra. lra.
  - apply nominal_distance_increasing; [assumption |].
    rewrite (Rabs_left1 t2), (Rabs_left1 t1) by lra. lra.
Qed.

Lemma nominal_run_monotone_witness :
  Rabs default_tmin <= 200 /\ Rabs default_tmax <= 200 /\
  default_tmin < default_tmax /\ (2 <= default_points)%Z /\
  1e-6 * IZR (default_points - 1) <= default_tmax - default_tmin /\
  exists tr,
    main_trajectory k_gauss q_nominal a_nominal T_peri_nominal
                    default_tmin default_tmax default_points = Ok tr.
Proof.
  assert (Hmin : Rabs default_tmin <= 200).
  { unfold default_tmin. rewrite Rabs_left by lra. lra. }
  assert (Hmax : Rabs default_tmax <= 200).
  { unfold default_tmax. rewrite Rabs_pos_eq by lra. lra. }
  assert (Hlt : default_tmin < default_tmax)
    by (unfold default_tmin, default_tmax; lra).
  assert (Hstep : 1e-6 * IZR (default_points - 1)
                  <= default_tmax - default_tmin).
  { unfold default_tmin, default_tmax, default_points.
    change (2001 - 1)%Z with 2000%Z. lra. }
  split; [exact Hmin |]. split; [exact Hmax |]. split; [exact Hlt |].
  split; [discriminate |]. split; [exact Hstep |].
  destruct (nominal_run_monotone default_tmin default_tmax default_points
              Hmin Hmax Hlt) as [tr [Hm _]]; [discriminate | exact Hstep |].
  exists tr. exact Hm.
Defined.

(** ** The names of the image files *)

Section PathFacts.

Import Ascii String.
Local Open Scope string_scope.

Lemma string_app_assoc (s1 s2 s3 : string) :
  (s1 ++ s2) ++ s3 = s1 ++ (s2 ++ s3).
Proof.
  induction s1 as [| a s1 IH]; [reflexivity |]. cbn. now rewrite IH.
Qed.

Lemma string_app_inj_l (s s1 s2 : string) : s ++ s1 = s ++ s2 -> s1 = s2.
Proof.
  induction s as [| a s IH]; cbn; intros Heq; [assumption |].
  injection Heq as Heq. now apply IH.
Qed.

Lemma rstrip_split (c : ascii) (s : string) :
  exists k, s = Paths.rstrip c s ++ Paths.replicate k c.
Proof.
  induction s as [| a s [k IH]].
  - exists 0%nat. reflexivity.
  - cbn [Paths.rstrip]. destruct (Paths.rstrip c s) as [| b r] eqn:Hr.
    + cbn in IH. destruct (Ascii.eqb_spec a c) as [-> | Hne].
      * exists (S k). cbn. now rewrite <- IH.
      * exists k. cbn. now rewrite <- IH.
    + exists k. cbn. cbn in IH. now rewrite <- IH.
Qed.

Lemma rstrip_last (c : ascii) (s : string) :
  Paths.last_char (Paths.rstrip c s) <> Some c.
Proof.
  induction s as [| a s IH]; [discriminate |].
  cbn [Paths.rstrip]. destruct (Paths.rstrip c s) as [| b r] eqn:Hr.
  - destruct (Ascii.eqb_spec a c) as [-> | Hne]; [discriminate |].
    cbn. congruence.
  - exact IH.
Qed.

Lemma rstrip_app_char (c : ascii) (s : string) :
  Paths.rstrip c (s ++ String c EmptyString) = Paths.rstrip c s.
Proof.
  induction s as [| a s IH].
  - cbn. now rewrite Ascii.eqb_refl.
  - cbn [append Paths.rstrip]. now rewrite IH.
Qed.

Lemma rstrip_app_replicate (c : ascii) (k : nat) (s : string) :
  Paths.rstrip c (s ++ Paths.replicate k c) = Paths.rstrip c s.
Proof.
  revert s. induction k as [| k IH]; intros s.
  - cbn. f_equal. induction s as [| a s IHs]; [reflexivity |].
    cbn. now rewrite IHs.
  - cbn [Paths.replicate].
    change (String c (Paths.replicate k c))
      with (String c EmptyString ++ Paths.replicate k c).
    rewrite <- string_app_assoc, IH. apply rstrip_app_char.
Qed.

End PathFacts.

Section PathClaims.

Import Ascii String.
Local Open Scope string_scope.

(** X17.  Both file names are the directory part of [--out], which is
    [out] without its trailing slashes and so never ends in a slash,
    followed by one slash and the name of the image. *)
Theorem out_files_join_with_one_slash (out : string) :
  exists dir k,
    out = dir ++ Paths.replicate k "/" /\
    Paths.last_char dir <> Some "/"%char /\
    Paths.out1 out = dir ++ "/3I_ATLAS_distancia_vs_tempo.png" /\
    Paths.out2 out = dir ++ "/3I_ATLAS_trajetoria_perifocal.png".
Proof.
  destruct (rstrip_split "/" out) as [k Hk].
  exists (Paths.rstrip "/" out), k.
  split; [exact Hk |]. split; [apply rstrip_last |].
  split; reflexivity.
Qed.

(** X18.  Trailing slashes of [--out] do not change the file names. *)
Theorem trailing_slashes_ignored (out : string) (k : nat) :
  Paths.out1 (out ++ Paths.replicate k "/") = Paths.out1 out /\
  Paths.out2 (out ++ Paths.replicate k "/") = Paths.out2 out.
Proof.
  unfold Paths.out1, Paths.out2. rewrite rstrip_app_replicate.
  split; reflexivity.
Qed.

(** X19.  An [--out] that is empty or made of slashes only puts both
    files in the root directory. *)
Theorem slashes_only_out_is_root (k : nat) :
  Paths.out1 (Paths.replicate k "/") = "/3I_ATLAS_distancia_vs_tempo.png" /\
  Paths.out2 (Paths.replicate k "/") = "/3I_ATLAS_trajetoria_perifocal.png".
Proof.
  unfold Paths.out1, Paths.out2.
  change (Paths.replicate k "/") with ("" ++ Paths.replicate k "/").
  rewrite rstrip_app_replicate. split; reflexivity.
Qed.

(** X20.  The two images never get the same file name. *)
Theorem output_files_distinct (out : string) : Paths.out1 out <> Paths.out2 out.
Proof.
  unfold Paths.out1, Paths.out2. intros Heq.
  apply string_app_inj_l in Heq. discriminate.
Qed.

End PathClaims.
